(** * Peer-IP enrichment of HTTP client spans

    A shallow embedding of [opentelemetry/util/http/httplib.py]: the
    dead-span sweep [_remove_nonrecording], the capture trigger [trysetip],
    the wrappers installed on [HTTPConnection.send] / [connect], the
    registration scope [set_ip_on_next_http_connection] and
    [_instrument] / [_uninstrument].

    Python objects are referred to by identity (a natural number); their
    mutable state lives in an explicit [World] that every operation threads
    through.  Calls into collaborators that are only observable through
    their effects (the logger, the socket, [Span.set_attribute]) are
    recorded, in order, in the world's trace. *)

From Stdlib Require Import ZArith String List Lia.
From stdpp Require Import base option list gmap strings.
From Equations Require Import Equations.

Set Warnings "-register-all".
Local Open Scope string_scope.
Local Open Scope list_scope.

(** ** Python values, exceptions and outcomes *)

(** The exception classes that occur in the module or can come out of the
    socket layer.  [KeyboardInterrupt] stands for the classes that derive
    from [BaseException] only, which [except Exception] lets through. *)
Inductive Exn :=
| OSError
| AttributeError
| TypeError
| IndexError
| ValueError
| UnboundLocalError
| KeyboardInterrupt.

Definition isinstance_Exception (e : Exn) : bool :=
  match e with
  | KeyboardInterrupt => false
  | _ => true
  end.

(** What evaluating a Python expression or call yields. *)
Inductive Outcome (A : Type) :=
| Return (a : A)
| Raise (e : Exn).
Arguments Return {A} a.
Arguments Raise {A} e.

(** The values [socket.getpeername()] can hand back: a tuple
    [(host, port, ...)] for AF_INET / AF_INET6, a path string for AF_UNIX,
    and whatever a socket-like object chooses to return. *)
Inductive Value :=
| VNone
| VInt (z : Z)
| VStr (s : string)
| VTuple (items : list Value).

(** Python truthiness, [bool(v)]. *)
Definition truthy (v : Value) : bool :=
  match v with
  | VNone => false
  | VInt z => negb (z =? 0)%Z
  | VStr s => negb (String.eqb s "")
  | VTuple items => match items with [] => false | _ :: _ => true end
  end.

(** [v[0]]. *)
Definition getitem0 (v : Value) : Outcome Value :=
  match v with
  | VNone | VInt _ => Raise TypeError
  | VStr EmptyString => Raise IndexError
  | VStr (String c _) => Return (VStr (String c EmptyString))
  | VTuple [] => Raise IndexError
  | VTuple (x :: _) => Return x
  end.

(** ** Objects and the world *)

Definition SpanRef := nat.
Definition ConnRef := nat.
Definition Loc := nat.

(** [logging.DEBUG] and [logging.WARNING]. *)
Definition DEBUG : Z := 10.
Definition WARNING : Z := 30.

(** Modelled from the spec: the attribute key imported from the semantic
    conventions package, the standardized network-peer-address key that the
    docstring of [trysetip] calls net.peer.ip. *)
Definition NET_PEER_IP : string := "net.peer.ip".

Definition _STATE_KEY : string := "httpbase_instrumentation_state".

(** A live socket, as far as this module looks at it: the outcome of its
    [getpeername()]. *)
Record Socket := { getpeername : Outcome Value }.

(** Calls into the collaborators, in program order: the logger, the
    connection's [sock] attribute, [getpeername()], the transport's own
    (unwrapped) method, and [Span.set_attribute]. *)
Inductive Event :=
| EvLog (level : Z) (msg : string)
| EvSockRead (conn : ConnRef)
| EvGetPeerName (conn : ConnRef)
| EvTransport (method : string) (conn : ConnRef)
| EvSetAttribute (span : SpanRef) (key : string) (value : Value).

(** - [recording s] is what [s.is_recording()] returns;
    - [lists] is the store of list objects ([need_ip] lists), addressed by
      location, so that every holder of a location sees the same list;
    - [ctx] is the current ambient context;
    - [conns] gives what reading [conn.sock] yields ([None] until the
      connection is established, which is also the state of a connection
      that was never touched);
    - [trace] records the calls made so far. *)
Record World := mkWorld {
  recording : SpanRef -> bool;
  lists : list (list SpanRef);
  ctx : gmap string Loc;
  conns : gmap ConnRef (Outcome (option Socket));
  trace : list Event
}.

Definition set_lists (f : list (list SpanRef) -> list (list SpanRef)) (w : World) : World :=
  mkWorld (recording w) (f (lists w)) (ctx w) (conns w) (trace w).

Definition set_ctx (c : gmap string Loc) (w : World) : World :=
  mkWorld (recording w) (lists w) c (conns w) (trace w).

Definition set_trace (t : list Event) (w : World) : World :=
  mkWorld (recording w) (lists w) (ctx w) (conns w) t.

Definition emit (e : Event) (w : World) : World :=
  set_trace (trace w ++ [e]) w.

(** Stateful code: a world in, an outcome and a world out. *)
Definition M (A : Type) : Type := World -> Outcome A * World.

Definition ret {A} (a : A) : M A := fun w => (Return a, w).

Definition bind {A B} (m : M A) (k : A -> M B) : M B :=
  fun w =>
    match m w with
    | (Return a, w') => k a w'
    | (Raise e, w') => (Raise e, w')
    end.

Declare Scope py_scope.
Delimit Scope py_scope with py.
Notation "x <- m ;; k" := (bind m (fun x => k))
  (at level 100, m at next level, right associativity) : py_scope.
Notation "m ;;; k" := (bind m (fun _ => k))
  (at level 100, right associativity) : py_scope.

(** ** [_remove_nonrecording] *)

(** Matching on a value while keeping the equation that says what it is. *)
Definition inspect {A : Type} (a : A) : {b : A | a = b} := exist _ a eq_refl.

(** [spanlist.pop()]: [None] stands for the [IndexError] of an empty list. *)
Definition list_pop (l : list SpanRef) : option (list SpanRef) :=
  match l with
  | [] => None
  | _ :: _ => Some (removelast l)
  end.

(** What one pass through the body of the [while] loop ends in: going
    round again with a new index and list, or leaving the function. *)
Inductive Step :=
| Next (idx : Z) (spanlist : list SpanRef) (tr : list Event)
| Exit (r : Outcome bool) (spanlist : list SpanRef) (tr : list Event).

Definition not_recording_msg : string := "Span is not recording: %s".

(** The loop body, entered with [idx >= 0]. *)
Definition sweep_body (is_recording : SpanRef -> bool)
    (idx : Z) (spanlist : list SpanRef) (tr : list Event) : Step :=
  match spanlist !! Z.to_nat idx with
  | None => Exit (Raise IndexError) spanlist tr
  | Some span =>
    if negb (is_recording span) then
      let tr := tr ++ [EvLog DEBUG not_recording_msg] in
      let islast := (idx + 1 =? Z.of_nat (length spanlist))%Z in
      let swapped :=
        if negb islast then
          match spanlist !! (length spanlist - 1)%nat with
          | Some lastspan => Some (<[Z.to_nat idx := lastspan]> spanlist)
          | None => None
          end
        else Some spanlist in
      match swapped with
      | None => Exit (Raise IndexError) spanlist tr
      | Some spanlist =>
        match list_pop spanlist with
        | None => Exit (Raise IndexError) spanlist tr
        | Some spanlist =>
          if islast then
            if (idx =? 0)%Z then Exit (Return false) spanlist tr
            else Next (idx - 1) spanlist tr
          else Next idx spanlist tr
        end
      end
    else Next (idx - 1) spanlist tr
  end.

(** The quantity the loop runs down: [idx + len(spanlist)], shifted by
    one so that it is a natural number at [idx = -1]. *)
Definition sweep_measure (idx : Z) (spanlist : list SpanRef) : nat :=
  (Z.to_nat (idx + 1) + length spanlist)%nat.

(** Every way round the loop runs the measure down: the obligation of
    the well-founded definition of the loop below. *)
Ltac sweep_decrease :=
  unfold sweep_body, sweep_measure, list_pop;
  repeat match goal with
  | |- context [match ?l !! ?i with _ => _ end] => destruct (l !! i) eqn:?
  | |- context [if ?b then _ else _] => destruct b eqn:?
  | |- context [match ?l with [] => _ | _ :: _ => _ end] => destruct l eqn:?
  end;
  repeat match goal with
  | H : negb _ = _ |- _ => cbn [negb] in H
  end;
  try discriminate;
  intros [= <- <- <-];
  repeat match goal with
  | H : _ = _ :: _ |- _ =>
      apply (f_equal (@length SpanRef)) in H; rewrite ?length_insert in H;
      cbn [length] in H
  end;
  rewrite ?removelast_firstn_len, ?length_firstn;
  repeat match goal with
  | |- context [match ?l with [] => _ | _ :: _ => _ end] => destruct l
  end;
  cbn [length] in *; rewrite ?length_firstn; lia.

Equations? sweep_loop (is_recording : SpanRef -> bool)
    (idx : Z) (spanlist : list SpanRef) (tr : list Event)
  : Outcome bool * list SpanRef * list Event
  by wf (sweep_measure idx spanlist) lt :=
sweep_loop is_recording idx spanlist tr with inspect (0 <=? idx)%Z => {
  | exist _ false _ := (Return true, spanlist, tr);
  | exist _ true Hge with inspect (sweep_body is_recording idx spanlist tr) => {
    | exist _ (Exit r spanlist' tr') _ := (r, spanlist', tr');
    | exist _ (Next idx' spanlist' tr') Hbody := sweep_loop is_recording idx' spanlist' tr' } }.
Proof.
  assert (0 <= idx)%Z as Hidx by lia. clear Hge sweep_loop.
  revert Hbody. sweep_decrease.
Qed.

(** [idx = len(spanlist) - 1], then the loop. *)
Definition _remove_nonrecording (is_recording : SpanRef -> bool)
    (spanlist : list SpanRef) (tr : list Event)
  : Outcome bool * list SpanRef * list Event :=
  sweep_loop is_recording (Z.of_nat (length spanlist) - 1) spanlist tr.

(** The same loop run on fuel, one unit per pass through the loop test. *)
Fixpoint sweep_run (is_recording : SpanRef -> bool) (fuel : nat)
    (idx : Z) (spanlist : list SpanRef) (tr : list Event)
  : option (Outcome bool * list SpanRef * list Event) :=
  match fuel with
  | O => None
  | S fuel =>
    if (0 <=? idx)%Z then
      match sweep_body is_recording idx spanlist tr with
      | Next idx' spanlist' tr' => sweep_run is_recording fuel idx' spanlist' tr'
      | Exit r spanlist' tr' => Some (r, spanlist', tr')
      end
    else Some (Return true, spanlist, tr)
  end.

(** ** [trysetip] *)

(** Modelled from the spec: the ambient context is a propagated key-value
    store; [get_value] reads a key of the current context, [set_value]
    builds a context that differs from the current one at that key,
    [attach] installs a context and hands back a token that remembers the
    one it replaced, [detach] restores the context the token remembers. *)
Definition get_value (key : string) (w : World) : option Loc := ctx w !! key.

Definition set_value (key : string) (value : Loc) (w : World) : gmap string Loc :=
  <[key := value]> (ctx w).

Definition attach (c : gmap string Loc) : M (gmap string Loc) :=
  fun w => (Return (ctx w), set_ctx c w).

Definition detach (token : gmap string Loc) : M unit :=
  fun w => (Return tt, set_ctx token w).

(** The state dictionary is built in one place only, with the single key
    [need_ip], and never changes afterwards: a state is identified with the
    location of its [need_ip] list. *)
Definition _getstate (w : World) : option Loc := get_value _STATE_KEY w.

(** The list [state.get("need_ip")] of the current context, if any. *)
Definition need_ip (w : World) : option (list SpanRef) :=
  match _getstate w with
  | Some state => lists w !! state
  | None => None
  end.

(** Reading [conn.sock]. *)
Definition read_sock (conn : ConnRef) (w : World) : Outcome (option Socket) :=
  default (Return None) (conns w !! conn).

Definition got_socket_msg : string := "Got socket: %s".
Definition failed_msg : string := "Failed to get peer address from %s".

(** How control leaves the [try] suite: through its [return], through an
    exception, or off its end, with the local [ip] bound or not. *)
Inductive TryExit :=
| TryReturn (b : bool)
| TryRaised (e : Exn)
| TryDone (ip : option Value).

Definition try_suite (conn : ConnRef) (w : World) : TryExit * World :=
  let w := emit (EvSockRead conn) w in
  match read_sock conn w with
  | Raise e => (TryRaised e, w)
  | Return sock =>
    let w := emit (EvLog DEBUG got_socket_msg) w in
    match sock with
    | None => (TryReturn false, w)
    | Some sock =>
      let w := emit (EvGetPeerName conn) w in
      match getpeername sock with
      | Raise e => (TryRaised e, w)
      | Return addr =>
        if truthy addr then
          match getitem0 addr with
          | Raise e => (TryRaised e, w)
          | Return first =>
            if truthy first then (TryDone (Some first), w) else (TryDone None, w)
          end
        else (TryDone None, w)
      end
    end
  end.

(** The [else] suite: [for span in spanlist: span.set_attribute(NET_PEER_IP, ip)].
    Evaluating [ip] while it is unbound raises. *)
Fixpoint stamp_all (spanlist : list SpanRef) (ip : option Value) : M unit :=
  fun w =>
    match spanlist with
    | [] => (Return tt, w)
    | span :: rest =>
      match ip with
      | None => (Raise UnboundLocalError, w)
      | Some v => stamp_all rest ip (emit (EvSetAttribute span NET_PEER_IP v) w)
      end
    end.

Definition trysetip (conn : ConnRef) (loglevel : Z) : M bool :=
  fun w =>
    match _getstate w with
    | None => (Return true, w)
    | Some state =>
      match lists w !! state with
      | None | Some [] => (Return true, w)
      | Some spanlist =>
        let '(r, spanlist, tr) := _remove_nonrecording (recording w) spanlist (trace w) in
        let w := set_trace tr (set_lists (fun ls => <[state := spanlist]> ls) w) in
        match r with
        | Raise e => (Raise e, w)
        | Return false => (Return true, w)
        | Return true =>
          match try_suite conn w with
          | (TryReturn b, w) => (Return b, w)
          | (TryRaised e, w) =>
            if isinstance_Exception e
            then (Return true, emit (EvLog loglevel failed_msg) w)
            else (Raise e, w)
          | (TryDone ip, w) =>
            match stamp_all spanlist ip w with
            | (Return _, w) => (Return true, w)
            | (Raise e, w) => (Raise e, w)
            end
          end
        end
      end
    end.

(** Modelled from the spec: a span offers [setAttribute(key, value)]; the
    value an attribute holds is the one written last. *)
Definition span_attribute (tr : list Event) (span : SpanRef) (key : string) : option Value :=
  fold_left
    (fun acc e =>
       match e with
       | EvSetAttribute span' key' v =>
         if Nat.eqb span' span && String.eqb key' key then Some v else acc
       | _ => acc
       end)
    tr None.

(** ** The wrappers and their installation *)

Section Wrappers.
(** [Args] stands for the [(args, kwargs)] of a call, [R] for what the
    real method returns. *)
Variables Args R : Type.

Definition _instrumented_connect
    (wrapped : Args -> M R) (instance : ConnRef) (args : Args) : M R :=
  (result <- wrapped args ;;
   trysetip instance WARNING ;;;
   ret result)%py.

Definition instrumented_send
    (wrapped : Args -> M R) (instance : ConnRef) (args : Args) : M R :=
  (done <- trysetip instance DEBUG ;;
   result <- wrapped args ;;
   (if negb done then (trysetip instance WARNING ;;; ret tt) else ret tt) ;;;
   ret result)%py.

(** Modelled from the spec: a method slot of the transport class holds
    the original function or a wrapper object around the slot's earlier
    content; calling a wrapper object hands the wrapper function the
    bound inner callable, the instance and the arguments. *)
Inductive Attr :=
| Function (f : ConnRef -> Args -> M R)
| FunctionWrapper (wrapped : Attr)
    (wrapper : (Args -> M R) -> ConnRef -> Args -> M R).

Fixpoint call (a : Attr) (instance : ConnRef) (args : Args) : M R :=
  match a with
  | Function f => f instance args
  | FunctionWrapper inner wrapper => wrapper (call inner instance) instance args
  end.

(** Modelled from the spec: [wrap_function_wrapper(module, name, wrapper)]
    replaces the attribute [name] by a wrapper object around it; a missing
    attribute is a setup error that reaches the caller. *)
Definition wrap_function_wrapper (module : gmap string Attr) (name : string)
    (wrapper : (Args -> M R) -> ConnRef -> Args -> M R)
  : Outcome (gmap string Attr) :=
  match module !! name with
  | Some original => Return (<[name := FunctionWrapper original wrapper]> module)
  | None => Raise AttributeError
  end.

(** Modelled from the spec: [unwrap(obj, attr)] of the instrumentation
    utilities, which is not part of this module, removes a wrapper that was
    added and restores what it wrapped; an attribute that is not a wrapper
    object is left alone. *)
Definition unwrap (obj : gmap string Attr) (attr : string) : gmap string Attr :=
  match obj !! attr with
  | Some (FunctionWrapper wrapped _) => <[attr := wrapped]> obj
  | _ => obj
  end.

Definition instrument_connect (module : gmap string Attr) (name : string)
  : Outcome (gmap string Attr) :=
  wrap_function_wrapper module name _instrumented_connect.

(** [HTTPConnection] is the class namespace being patched. *)
Definition _instrument (HTTPConnection : gmap string Attr) : Outcome (gmap string Attr) :=
  match wrap_function_wrapper HTTPConnection "send" instrumented_send with
  | Return HTTPConnection => instrument_connect HTTPConnection "connect"
  | Raise e => Raise e
  end.

Definition _uninstrument (HTTPConnection : gmap string Attr) : gmap string Attr :=
  unwrap (unwrap HTTPConnection "send") "connect".

End Wrappers.

Arguments Function {Args R} f.
Arguments FunctionWrapper {Args R} wrapped wrapper.
Arguments call {Args R} a instance args.

(** ** The registration scope *)

(** [l.remove(x)]: the first occurrence goes; [None] stands for the
    [ValueError] raised when there is none. *)
Fixpoint list_remove (x : SpanRef) (l : list SpanRef) : option (list SpanRef) :=
  match l with
  | [] => None
  | y :: rest =>
    if Nat.eqb x y then Some rest
    else match list_remove x rest with
         | Some rest' => Some (y :: rest')
         | None => None
         end
  end.

(** [try: body finally: cleanup]. *)
Definition try_finally {A} (body : M A) (cleanup : M unit) : M A :=
  fun w =>
    let '(r, w) := body w in
    match cleanup w with
    | (Return _, w) => (r, w)
    | (Raise e, w) => (Raise e, w)
    end.

(** [try: spans.remove(span) except ValueError: pass]. *)
Definition remove_tolerant (spans : Loc) (span : SpanRef) : M unit :=
  fun w =>
    match lists w !! spans with
    | Some l =>
      match list_remove span l with
      | Some l' => (Return tt, set_lists (fun ls => <[spans := l']> ls) w)
      | None => (Return tt, w)
      end
    | None => (Return tt, w)
    end.

(** The context manager around the suite [body] of its [with] statement. *)
Definition set_ip_on_next_http_connection {A} (span : SpanRef) (body : M A) : M A :=
  fun w =>
    match _getstate w with
    | None =>
      let state := length (lists w) in
      let w := set_lists (fun ls => ls ++ [[span]]) w in
      (token <- attach (set_value _STATE_KEY state w) ;;
       try_finally body (detach token))%py w
    | Some state =>
      let spans := state in
      let w := set_lists (fun ls => alter (fun l => l ++ [span]) spans ls) w in
      try_finally body (remove_tolerant spans span) w
    end.

(** ** Vocabulary of the statements *)

(** The debug line the sweep logs for a span it drops. *)
Definition dead_log : Event := EvLog DEBUG not_recording_msg.

Definition all_recording (is_recording : SpanRef -> bool) (l : list SpanRef) : Prop :=
  Forall (fun s => is_recording s = true) l.

(** The world the sweep leaves behind. *)
Definition after_sweep (w : World) (state : Loc) (spanlist : list SpanRef)
    (tr : list Event) : World :=
  set_trace tr (set_lists (fun ls => <[state := spanlist]> ls) w).

(** What is left of [l] once the sweep has run in [w]. *)
Definition survivors (w : World) (l : list SpanRef) : list SpanRef :=
  snd (fst (_remove_nonrecording (recording w) l (trace w))).

Definition stamp (ip : Value) (span : SpanRef) : Event :=
  EvSetAttribute span NET_PEER_IP ip.

(** The events of a [try] suite that got as far as [getpeername()]. *)
Definition probe (conn : ConnRef) : list Event :=
  [EvSockRead conn; EvLog DEBUG got_socket_msg; EvGetPeerName conn].

(** The list once [try: l.remove(x) except ValueError: pass] has run. *)
Definition without_first (x : SpanRef) (l : list SpanRef) : list SpanRef :=
  default l (list_remove x l).

(** The world in which the suite of the [with] statement starts. *)
Definition scope_entered (span : SpanRef) (w : World) : World :=
  match _getstate w with
  | None =>
    set_ctx (<[_STATE_KEY := length (lists w)]> (ctx w))
      (set_lists (fun ls => ls ++ [[span]]) w)
  | Some spans => set_lists (fun ls => alter (fun l => l ++ [span]) spans ls) w
  end.

(** [span] is not a member of the list of the current context. *)
Definition released (span : SpanRef) (w : World) : Prop :=
  forall l, need_ip w = Some l -> span ∉ l.

(** ** Concrete worlds *)

(** One connection state with the waiting list [l]; connection [0] reads
    [sock] from its socket attribute. *)
Definition world_of (is_recording : SpanRef -> bool) (l : list SpanRef)
    (sock : Outcome (option Socket)) : World :=
  mkWorld is_recording [l] {[ _STATE_KEY := 0%nat ]} {[ 0%nat := sock ]} [].

(** A world in which no scope is open. *)
Definition world_idle : World :=
  mkWorld (fun _ => true) [] ∅ ∅ [].

Definition peer (addr : Value) : Outcome (option Socket) :=
  Return (Some {| getpeername := Return addr |}).

(** The transport's own method [method]: it runs, and returns [None]. *)
Definition transport (method : string) : ConnRef -> unit -> M Value :=
  fun instance _ w => (Return VNone, emit (EvTransport method instance) w).

Definition HTTPConnection_original : gmap string (Attr unit Value) :=
  {[ "send" := Function (transport "send");
     "connect" := Function (transport "connect") ]}.

(** ** Vocabulary of the behaviour of [trysetip] *)

(** The debug lines of a sweep of [l] in [w], one per span dropped. *)
Definition sweep_logs (w : World) (l : list SpanRef) : list Event :=
  replicate (length l - length (survivors w l)) dead_log.

(** [trysetip] ends in [r], having swept the list [l] of [state] and then
    made the calls [ext]. *)
Definition ends_in (conn : ConnRef) (loglevel : Z) (w : World) (state : Loc)
    (l : list SpanRef) (r : Outcome bool) (ext : list Event) : Prop :=
  trysetip conn loglevel w =
  (r, after_sweep w state (survivors w l) (trace w ++ sweep_logs w l ++ ext)).

(** Something in the [try] suite raises [e], after the calls [seen]: the
    read of [conn.sock], [getpeername()], or the indexing [addr[0]]. *)
Definition socket_layer_raises (conn : ConnRef) (w : World) (e : Exn)
    (seen : list Event) : Prop :=
  (read_sock conn w = Raise e /\ seen = [EvSockRead conn])
  \/ exists sock,
       read_sock conn w = Return (Some sock) /\ seen = probe conn
       /\ (getpeername sock = Raise e
           \/ exists addr,
                getpeername sock = Return addr /\ truthy addr = true
                /\ getitem0 addr = Raise e).

(** The connection has a live socket whose peer address starts with the
    truthy [ip]. *)
Definition peer_ip (conn : ConnRef) (w : World) (ip : Value) : Prop :=
  exists sock addr,
    read_sock conn w = Return (Some sock) /\ getpeername sock = Return addr
    /\ getitem0 addr = Return ip /\ truthy ip = true.

(** The connection has a live socket whose peer address is falsy, or
    starts with something falsy. *)
Definition peer_ip_unbound (conn : ConnRef) (w : World) : Prop :=
  exists sock addr,
    read_sock conn w = Return (Some sock) /\ getpeername sock = Return addr
    /\ (truthy addr = false
        \/ exists first, getitem0 addr = Return first /\ truthy first = false).

(** The calls [trysetip conn loglevel] may make in [w] when [l] is the
    waiting list. *)
Definition may_emit (conn : ConnRef) (loglevel : Z) (w : World)
    (l : list SpanRef) (e : Event) : Prop :=
  match e with
  | EvLog level msg =>
    (level = DEBUG /\ (msg = not_recording_msg \/ msg = got_socket_msg))
    \/ (level = loglevel /\ msg = failed_msg)
  | EvSockRead c | EvGetPeerName c => c = conn
  | EvTransport _ _ => False
  | EvSetAttribute span key _ =>
    key = NET_PEER_IP /\ span ∈ l /\ recording w span = true
  end.

(** A transport method that opens the socket of [instance] with peer
    address [addr], and returns [None]. *)
Definition opening (method : string) (addr : Value) : ConnRef -> unit -> M Value :=
  fun instance _ w =>
    (Return VNone,
     mkWorld (recording w) (lists w) (ctx w) (<[instance := peer addr]> (conns w))
       (trace w ++ [EvTransport method instance])).

(** * Properties *)

(** ** The sweep *)

Example sweep_ex1 :
  _remove_nonrecording (fun s => Nat.even s) [1; 2; 3; 4; 5; 6]%nat [] =
  (Return true, [4; 2; 6]%nat,
   [EvLog DEBUG not_recording_msg; EvLog DEBUG not_recording_msg; EvLog DEBUG not_recording_msg]).
Proof. vm_compute. reflexivity. Qed.

(** [pop()] takes exactly one element away. *)
Lemma list_pop_length l :
  match list_pop l with
  | Some l' => length l = S (length l')
  | None => l = []
  end.
Proof.
  destruct l as [|x xs]; [reflexivity|]. cbn [list_pop].
  rewrite (app_removelast_last 0%nat (l:=x :: xs)) at 1 by discriminate.
  rewrite length_app. simpl. lia.
Qed.

Section SweepFacts.
Variable is_recording : SpanRef -> bool.

Lemma sweep_loop_eq idx spanlist tr :
  sweep_loop is_recording idx spanlist tr =
  if (0 <=? idx)%Z then
    match sweep_body is_recording idx spanlist tr with
    | Next idx' spanlist' tr' => sweep_loop is_recording idx' spanlist' tr'
    | Exit r spanlist' tr' => (r, spanlist', tr')
    end
  else (Return true, spanlist, tr).
Proof.
  funelim (sweep_loop is_recording idx spanlist tr).
  all: repeat match goal with H : ?a = ?b |- context [?a] => rewrite H end.
  all: reflexivity.
Qed.

(** The three ways through the body, at the position just after [pre]. *)
Lemma sweep_body_keep pre x post tr :
  is_recording x = true ->
  sweep_body is_recording (Z.of_nat (length pre)) (pre ++ x :: post) tr =
  Next (Z.of_nat (length pre) - 1) (pre ++ x :: post) tr.
Proof.
  intros Hx. unfold sweep_body.
  rewrite Nat2Z.id, list_lookup_middle by reflexivity.
  rewrite Hx. reflexivity.
Qed.

Lemma sweep_body_drop_last pre x tr :
  is_recording x = false ->
  sweep_body is_recording (Z.of_nat (length pre)) (pre ++ [x]) tr =
  if (Z.of_nat (length pre) =? 0)%Z
  then Exit (Return false) pre (tr ++ [dead_log])
  else Next (Z.of_nat (length pre) - 1) pre (tr ++ [dead_log]).
Proof.
  intros Hx. unfold sweep_body.
  rewrite Nat2Z.id, list_lookup_middle by reflexivity.
  rewrite Hx. cbn [negb].
  replace (Z.of_nat (length pre) + 1 =? Z.of_nat (length (pre ++ [x])))%Z with true
    by (symmetry; apply Z.eqb_eq; rewrite length_app; simpl; lia).
  cbn [negb]. unfold list_pop.
  destruct (pre ++ [x]) as [|y ys] eqn:E; [destruct pre; discriminate|].
  rewrite <- E, removelast_last. reflexivity.
Qed.

Lemma sweep_body_drop_swap pre x post z tr :
  is_recording x = false ->
  sweep_body is_recording (Z.of_nat (length pre)) (pre ++ x :: post ++ [z]) tr =
  Next (Z.of_nat (length pre)) (pre ++ z :: post) (tr ++ [dead_log]).
Proof.
  intros Hx. unfold sweep_body.
  rewrite Nat2Z.id, list_lookup_middle by reflexivity.
  rewrite Hx. cbn [negb].
  replace (Z.of_nat (length pre) + 1 =? Z.of_nat (length (pre ++ x :: post ++ [z])))%Z
    with false
    by (symmetry; apply Z.eqb_neq; rewrite !length_app; simpl; rewrite length_app; simpl; lia).
  cbn [negb].
  replace (pre ++ x :: post ++ [z]) with ((pre ++ x :: post) ++ [z])
    by (rewrite <- app_assoc; reflexivity).
  rewrite list_lookup_middle by (rewrite length_app; simpl; lia).
  rewrite <- app_assoc. cbn [app].
  rewrite insert_app_r_alt by lia. rewrite Nat.sub_diag. 
  change (<[0%nat:=z]> (x :: post ++ [z])) with (z :: post ++ [z]).
  unfold list_pop.
  destruct (pre ++ z :: post ++ [z]) as [|y ys] eqn:E; [destruct pre; discriminate|].
  rewrite <- E.
  replace (pre ++ z :: post ++ [z]) with ((pre ++ z :: post) ++ [z])
    by (rewrite <- app_assoc; reflexivity).
  rewrite removelast_last. reflexivity.
Qed.

Lemma dead_count_keep pre x :
  is_recording x = true ->
  (length (pre ++ [x]) - length (List.filter is_recording (pre ++ [x])) =
   length pre - length (List.filter is_recording pre))%nat.
Proof.
  intros Hx. rewrite List.filter_app, !length_app. simpl. rewrite Hx. simpl. lia.
Qed.

Lemma dead_count_drop pre x :
  is_recording x = false ->
  (length (pre ++ [x]) - length (List.filter is_recording (pre ++ [x])) =
   S (length pre - length (List.filter is_recording pre)))%nat.
Proof.
  intros Hx. rewrite List.filter_app, !length_app. simpl. rewrite Hx. simpl.
  pose proof (List.filter_length_le is_recording pre). lia.
Qed.

(** Loop invariant: the index stands on the last element of [pre], and
    everything behind it, [post], has been looked at and is recording. *)
Lemma sweep_loop_spec pre :
  forall post tr,
    all_recording is_recording post ->
    exists b l',
      sweep_loop is_recording (Z.of_nat (length pre) - 1) (pre ++ post) tr =
      (Return b, l',
       tr ++ replicate (length pre - length (List.filter is_recording pre)) dead_log)
      /\ l' ≡ₚ List.filter is_recording pre ++ post
      /\ (b = false -> l' = [])
      /\ (b = true -> l' = [] -> pre ++ post = []).
Proof.
  induction pre as [|x pre IH] using rev_ind; intros post tr Hpost.
  - exists true, post. rewrite sweep_loop_eq. simpl. rewrite app_nil_r.
    repeat split; [reflexivity|discriminate|tauto].
  - replace (Z.of_nat (length (pre ++ [x])) - 1)%Z with (Z.of_nat (length pre))
      by (rewrite length_app; simpl; lia).
    rewrite <- app_assoc. cbn [app].
    rewrite sweep_loop_eq.
    replace (0 <=? Z.of_nat (length pre))%Z with true by (symmetry; apply Z.leb_le; lia).
    destruct (is_recording x) eqn:Hx.
    + rewrite sweep_body_keep by assumption.
      destruct (IH (x :: post) tr) as (b & l' & Heq & Hperm & Hf & Ht).
      { constructor; assumption. }
      exists b, l'. rewrite Heq, dead_count_keep by assumption.
      split; [reflexivity|]. split.
      { rewrite Hperm, List.filter_app. simpl. rewrite Hx, <- app_assoc. reflexivity. }
      split; [assumption|].
      intros Hb Hl. specialize (Ht Hb Hl). destruct pre; discriminate.
    + destruct post as [|z post _] using rev_ind.
      * rewrite sweep_body_drop_last by assumption.
        destruct (Z.of_nat (length pre) =? 0)%Z eqn:Hz.
        { apply Z.eqb_eq in Hz. destruct pre; [|simpl in Hz; lia].
          exists false, []. simpl. rewrite Hx. simpl.
          repeat split; [reflexivity|discriminate]. }
        destruct (IH [] (tr ++ [dead_log])) as (b & l' & Heq & Hperm & Hf & Ht).
        { constructor. }
        rewrite app_nil_r in Heq.
        exists b, l'. rewrite Heq, dead_count_drop by assumption.
        split; [rewrite <- app_assoc; reflexivity|]. split.
        { rewrite Hperm, List.filter_app. simpl. rewrite Hx, !app_nil_r. reflexivity. }
        split; [assumption|].
        intros Hb Hl. specialize (Ht Hb Hl). rewrite app_nil_r in Ht. subst pre.
        apply Z.eqb_neq in Hz. simpl in Hz. lia.
      * apply Forall_app in Hpost as [Hpost Hz]. apply Forall_inv in Hz.
        rewrite sweep_body_drop_swap by assumption.
        rewrite sweep_loop_eq.
        replace (0 <=? Z.of_nat (length pre))%Z with true by (symmetry; apply Z.leb_le; lia).
        rewrite sweep_body_keep by assumption.
        destruct (IH (z :: post) (tr ++ [dead_log])) as (b & l' & Heq & Hperm & Hf & Ht).
        { constructor; assumption. }
        exists b, l'. rewrite Heq, dead_count_drop by assumption.
        split; [rewrite <- app_assoc; reflexivity|]. split.
        { rewrite Hperm, List.filter_app. simpl. rewrite Hx, app_nil_r.
          apply Permutation_app_head, Permutation_cons_append. }
        split; [assumption|].
        intros Hb Hl. specialize (Ht Hb Hl). destruct pre; discriminate.
Qed.

(** A list of recording spans goes through the sweep untouched. *)
Lemma sweep_loop_all_recording pre :
  forall post tr,
    all_recording is_recording pre ->
    sweep_loop is_recording (Z.of_nat (length pre) - 1) (pre ++ post) tr =
    (Return true, pre ++ post, tr).
Proof.
  induction pre as [|x pre IH] using rev_ind; intros post tr Hpre.
  - rewrite sweep_loop_eq. reflexivity.
  - apply Forall_app in Hpre as [Hpre Hx]. apply Forall_inv in Hx.
    replace (Z.of_nat (length (pre ++ [x])) - 1)%Z with (Z.of_nat (length pre))
      by (rewrite length_app; simpl; lia).
    rewrite <- app_assoc. cbn [app].
    rewrite sweep_loop_eq.
    replace (0 <=? Z.of_nat (length pre))%Z with true by (symmetry; apply Z.leb_le; lia).
    rewrite sweep_body_keep by assumption.
    apply IH. assumption.
Qed.

Lemma remove_nonrecording_spec spanlist tr :
  exists b l',
    _remove_nonrecording is_recording spanlist tr =
    (Return b, l', tr ++ replicate (length spanlist - length l') dead_log)
    /\ l' ≡ₚ List.filter is_recording spanlist
    /\ (spanlist <> [] -> (b = false <-> l' = [])).
Proof.
  destruct (sweep_loop_spec spanlist [] tr) as (b & l' & Heq & Hperm & Hf & Ht).
  { constructor. }
  rewrite !app_nil_r in *.
  exists b, l'. unfold _remove_nonrecording. rewrite Heq.
  rewrite (Permutation_length Hperm). split; [reflexivity|].
  split; [assumption|].
  intros Hne. split; [assumption|].
  intros Hl. destruct b; [|reflexivity]. exfalso. apply Hne, Ht; [reflexivity|assumption].
Qed.

Lemma remove_nonrecording_all_recording spanlist tr :
  all_recording is_recording spanlist ->
  _remove_nonrecording is_recording spanlist tr = (Return true, spanlist, tr).
Proof.
  intros H. unfold _remove_nonrecording.
  pose proof (sweep_loop_all_recording spanlist [] tr H) as Heq.
  rewrite app_nil_r in Heq. exact Heq.
Qed.

Lemma filter_all_recording l : all_recording is_recording (List.filter is_recording l).
Proof.
  apply Forall_forall. intros s Hs. apply list_elem_of_In, List.filter_In in Hs. tauto.
Qed.

Lemma perm_all_recording l l' :
  l' ≡ₚ List.filter is_recording l -> all_recording is_recording l'.
Proof.
  intros Hperm. unfold all_recording. rewrite Hperm. apply filter_all_recording.
Qed.

(** The loop leaves within as many passes as the measure says. *)
Lemma sweep_run_enough fuel :
  forall idx spanlist tr,
    (sweep_measure idx spanlist < fuel)%nat ->
    sweep_run is_recording fuel idx spanlist tr =
    Some (sweep_loop is_recording idx spanlist tr).
Proof.
  induction fuel as [|fuel IH]; intros idx spanlist tr Hm; [lia|].
  cbn [sweep_run]. rewrite sweep_loop_eq.
  destruct (0 <=? idx)%Z eqn:Hidx; [|reflexivity].
  apply Z.leb_le in Hidx.
  destruct (sweep_body is_recording idx spanlist tr) as [idx' l' tr'|r l' tr'] eqn:Hbody;
    [|reflexivity].
  apply IH.
  assert (sweep_measure idx' l' < sweep_measure idx spanlist)%nat; [|lia].
  revert Hbody. clear IH Hm. sweep_decrease.
Qed.
End SweepFacts.

(** ** [trysetip] *)

Lemma set_trace_id w : set_trace (trace w) w = w.
Proof. destruct w. reflexivity. Qed.

Lemma trysetip_nothing_to_do conn loglevel w :
  need_ip w = None \/ need_ip w = Some [] ->
  trysetip conn loglevel w = (Return true, w).
Proof.
  unfold need_ip, trysetip.
  destruct (_getstate w) as [state|]; [|reflexivity].
  intros [-> | ->]; reflexivity.
Qed.

Lemma trysetip_swept conn loglevel w state l b l' tr' :
  _getstate w = Some state ->
  lists w !! state = Some l ->
  l <> [] ->
  _remove_nonrecording (recording w) l (trace w) = (Return b, l', tr') ->
  trysetip conn loglevel w =
  let w1 := after_sweep w state l' tr' in
  if b then
    match try_suite conn w1 with
    | (TryReturn b, w2) => (Return b, w2)
    | (TryRaised e, w2) =>
      if isinstance_Exception e
      then (Return true, emit (EvLog loglevel failed_msg) w2)
      else (Raise e, w2)
    | (TryDone ip, w2) =>
      match stamp_all l' ip w2 with
      | (Return _, w3) => (Return true, w3)
      | (Raise e, w3) => (Raise e, w3)
      end
    end
  else (Return true, w1).
Proof.
  intros Hstate Hl Hne Hsweep. unfold trysetip.
  rewrite Hstate, Hl. destruct l as [|x l]; [congruence|].
  rewrite Hsweep. destruct b; reflexivity.
Qed.

Lemma stamp_all_bound l ip :
  forall w,
    stamp_all l (Some ip) w = (Return tt, set_trace (trace w ++ map (stamp ip) l) w).
Proof.
  induction l as [|s l IH]; intros w; cbn [stamp_all map].
  - rewrite app_nil_r, set_trace_id. reflexivity.
  - rewrite IH. unfold emit, set_trace. cbn. rewrite <- app_assoc. reflexivity.
Qed.

Lemma stamp_all_unbound s l w :
  stamp_all (s :: l) None w = (Raise UnboundLocalError, w).
Proof. reflexivity. Qed.

Lemma try_suite_not_connected conn w :
  read_sock conn w = Return None ->
  try_suite conn w =
  (TryReturn false, set_trace (trace w ++ [EvSockRead conn; EvLog DEBUG got_socket_msg]) w).
Proof.
  intros Hsock. unfold try_suite.
  change (read_sock conn (emit (EvSockRead conn) w)) with (read_sock conn w).
  rewrite Hsock. unfold emit, set_trace. cbn. rewrite <- app_assoc. reflexivity.
Qed.

Lemma try_suite_connected conn w sock :
  read_sock conn w = Return (Some sock) ->
  try_suite conn w =
  let w' := set_trace (trace w ++ probe conn) w in
  match getpeername sock with
  | Raise e => (TryRaised e, w')
  | Return addr =>
    if truthy addr then
      match getitem0 addr with
      | Raise e => (TryRaised e, w')
      | Return first =>
        if truthy first then (TryDone (Some first), w') else (TryDone None, w')
      end
    else (TryDone None, w')
  end.
Proof.
  intros Hsock. unfold try_suite.
  change (read_sock conn (emit (EvSockRead conn) w)) with (read_sock conn w).
  rewrite Hsock. unfold emit, set_trace, probe. cbn. rewrite <- !app_assoc. reflexivity.
Qed.

Lemma try_suite_sock_error conn w e :
  read_sock conn w = Raise e ->
  try_suite conn w = (TryRaised e, set_trace (trace w ++ [EvSockRead conn]) w).
Proof.
  intros Hsock. unfold try_suite.
  change (read_sock conn (emit (EvSockRead conn) w)) with (read_sock conn w).
  rewrite Hsock. reflexivity.
Qed.

Lemma getitem0_truthy addr first : getitem0 addr = Return first -> truthy addr = true.
Proof.
  destruct addr as [| |s|items]; try discriminate.
  - destruct s; [discriminate|reflexivity].
  - destruct items; [discriminate|reflexivity].
Qed.

Lemma read_sock_after_sweep conn w state l tr :
  read_sock conn (after_sweep w state l tr) = read_sock conn w.
Proof. reflexivity. Qed.

Lemma lookup_after_sweep w state l l' tr :
  lists w !! state = Some l ->
  lists (after_sweep w state l' tr) !! state = Some l'.
Proof.
  intros Hl. apply lookup_lt_Some in Hl.
  unfold after_sweep, set_trace, set_lists. cbn.
  apply list_lookup_insert_eq. exact Hl.
Qed.

Lemma survivors_spec w l :
  exists b,
    _remove_nonrecording (recording w) l (trace w) =
      (Return b, survivors w l,
       trace w ++ replicate (length l - length (survivors w l)) dead_log)
    /\ survivors w l ≡ₚ List.filter (recording w) l
    /\ (l <> [] -> (b = false <-> survivors w l = [])).
Proof.
  unfold survivors.
  destruct (remove_nonrecording_spec (recording w) l (trace w)) as (b & l' & Heq & H).
  rewrite Heq. exists b. cbn. split; [reflexivity|exact H].
Qed.

Lemma survivors_nonempty w l : survivors w l <> [] -> l <> [].
Proof.
  intros Hs ->. apply Hs.
  destruct (survivors_spec w []) as (b & _ & Hperm & _).
  apply Permutation_nil. symmetry. exact Hperm.
Qed.

Lemma elem_of_survivors w l s :
  s ∈ survivors w l <-> s ∈ l /\ recording w s = true.
Proof.
  destruct (survivors_spec w l) as (b & _ & Hperm & _).
  rewrite Hperm, !list_elem_of_In. apply List.filter_In.
Qed.

(** The capture path: a live socket whose peer address has a truthy first
    element. *)
Lemma trysetip_capture conn loglevel w state l sock addr ip :
  _getstate w = Some state ->
  lists w !! state = Some l ->
  survivors w l <> [] ->
  read_sock conn w = Return (Some sock) ->
  getpeername sock = Return addr ->
  getitem0 addr = Return ip ->
  truthy ip = true ->
  trysetip conn loglevel w =
  (Return true,
   after_sweep w state (survivors w l)
     (trace w ++ replicate (length l - length (survivors w l)) dead_log
        ++ probe conn ++ map (stamp ip) (survivors w l))).
Proof.
  intros Hstate Hl Hsurv Hsock Hpeer Hfirst Hip.
  destruct (survivors_spec w l) as (b & Heq & _ & Hb).
  pose proof (survivors_nonempty w l Hsurv) as Hne.
  assert (b = true) as -> by (destruct b; [reflexivity|]; exfalso; apply Hsurv, Hb; auto).
  rewrite (trysetip_swept conn loglevel w state l _ _ _ Hstate Hl Hne Heq). cbv zeta.
  rewrite (try_suite_connected conn _ sock) by (rewrite read_sock_after_sweep; exact Hsock).
  cbv zeta. rewrite Hpeer, (getitem0_truthy _ _ Hfirst), Hfirst, Hip.
  rewrite stamp_all_bound.
  unfold after_sweep, set_trace, set_lists. cbn. rewrite <- !app_assoc. reflexivity.
Qed.

Lemma span_attribute_stamped ip s l :
  forall tr,
    s ∈ l ->
    span_attribute (tr ++ map (stamp ip) l) s NET_PEER_IP = Some ip.
Proof.
  unfold span_attribute. intros tr Hs. rewrite fold_left_app.
  generalize (fold_left
    (fun acc e =>
       match e with
       | EvSetAttribute span' key' v =>
         if Nat.eqb span' s && String.eqb key' NET_PEER_IP then Some v else acc
       | _ => acc
       end) tr None).
  assert (forall l0, fold_left
    (fun acc e =>
       match e with
       | EvSetAttribute span' key' v =>
         if Nat.eqb span' s && String.eqb key' NET_PEER_IP then Some v else acc
       | _ => acc
       end) (map (stamp ip) l0) (Some ip) = Some ip) as Hkeep.
  { induction l0 as [|x l0 IH]; [reflexivity|]. cbn [map fold_left stamp].
    destruct (Nat.eqb x s && String.eqb NET_PEER_IP NET_PEER_IP); exact IH. }
  induction l as [|x l IH]; intros acc.
  - inversion Hs.
  - cbn [map fold_left stamp].
    destruct (Nat.eqb x s) eqn:Hx.
    + rewrite String.eqb_refl. cbn. apply Hkeep.
    + cbn. apply IH. apply elem_of_cons in Hs as [->|Hs]; [|exact Hs].
      rewrite Nat.eqb_refl in Hx. discriminate.
Qed.

(** A failing socket read or peer-address query is caught, logged once at
    the caller's level, and answered with [True]. *)
Lemma trysetip_failure_logged conn loglevel w state l e :
  _getstate w = Some state ->
  lists w !! state = Some l ->
  survivors w l <> [] ->
  read_sock conn w = Raise e
  \/ (exists sock, read_sock conn w = Return (Some sock) /\ getpeername sock = Raise e) ->
  isinstance_Exception e = true ->
  exists seen,
    (seen = [EvSockRead conn] \/ seen = probe conn)
    /\ trysetip conn loglevel w =
       (Return true,
        after_sweep w state (survivors w l)
          (trace w ++ replicate (length l - length (survivors w l)) dead_log
             ++ seen ++ [EvLog loglevel failed_msg])).
Proof.
  intros Hstate Hl Hsurv Hfail He.
  destruct (survivors_spec w l) as (b & Heq & _ & Hb).
  pose proof (survivors_nonempty w l Hsurv) as Hne.
  assert (b = true) as -> by (destruct b; [reflexivity|]; exfalso; apply Hsurv, Hb; auto).
  rewrite (trysetip_swept conn loglevel w state l _ _ _ Hstate Hl Hne Heq). cbv zeta.
  destruct Hfail as [Hsock|(sock & Hsock & Hpeer)].
  - exists [EvSockRead conn]. split; [left; reflexivity|].
    rewrite (try_suite_sock_error conn _ e) by (rewrite read_sock_after_sweep; exact Hsock).
    rewrite He. unfold emit, after_sweep, set_trace, set_lists. cbn.
    rewrite <- !app_assoc. reflexivity.
  - exists (probe conn). split; [right; reflexivity|].
    rewrite (try_suite_connected conn _ sock) by (rewrite read_sock_after_sweep; exact Hsock).
    cbv zeta. rewrite Hpeer, He. unfold emit, after_sweep, set_trace, set_lists. cbn.
    rewrite <- !app_assoc. reflexivity.
Qed.

(** A peer address that is falsy, or whose first element is, leaves [ip]
    unbound, and the [else] suite raises. *)
Lemma trysetip_unbound_ip conn loglevel w state l sock addr :
  _getstate w = Some state ->
  lists w !! state = Some l ->
  survivors w l <> [] ->
  read_sock conn w = Return (Some sock) ->
  getpeername sock = Return addr ->
  truthy addr = false \/ (exists first, getitem0 addr = Return first /\ truthy first = false) ->
  fst (trysetip conn loglevel w) = Raise UnboundLocalError.
Proof.
  intros Hstate Hl Hsurv Hsock Hpeer Hfalsy.
  destruct (survivors_spec w l) as (b & Heq & _ & Hb).
  pose proof (survivors_nonempty w l Hsurv) as Hne.
  assert (b = true) as -> by (destruct b; [reflexivity|]; exfalso; apply Hsurv, Hb; auto).
  rewrite (trysetip_swept conn loglevel w state l _ _ _ Hstate Hl Hne Heq). cbv zeta.
  rewrite (try_suite_connected conn _ sock) by (rewrite read_sock_after_sweep; exact Hsock).
  cbv zeta. rewrite Hpeer.
  destruct (survivors w l) as [|s rest]; [congruence|].
  destruct Hfalsy as [Haddr|(first & Hfirst & Hfalse)].
  - rewrite Haddr. reflexivity.
  - rewrite (getitem0_truthy _ _ Hfirst), Hfirst, Hfalse. reflexivity.
Qed.

(** ** The claims about [_remove_nonrecording] and [trysetip] *)

(** C1. The claim: for every outcome of reading the socket and of querying
    the peer address, including an empty or falsy address, [trysetip]
    returns a boolean and lets no exception out.  The code does not do that:
    with a span waiting and a live socket whose [getpeername()] comes back
    empty (the empty path of an unnamed AF_UNIX peer) or with an empty host,
    the local [ip] is never bound and the [else] suite raises
    [UnboundLocalError] out of [trysetip]. *)
Theorem trysetip_unbound_ip_escapes :
  fst (trysetip 0 WARNING (world_of (fun _ => true) [1%nat] (peer (VStr ""))))
    = Raise UnboundLocalError
  /\ fst (trysetip 0 WARNING
            (world_of (fun _ => true) [1%nat] (peer (VTuple [VStr ""; VInt 0]))))
    = Raise UnboundLocalError.
Proof. split; vm_compute; reflexivity. Qed.

(** C2. The sweep removes exactly the spans that are not recording: what
    survives is, as a multiset, the recording spans of the input; one debug
    line is logged per span dropped; for a non-empty input the function
    returns [False] exactly when nothing survives; and in that case
    [trysetip] returns [True] having done nothing but the sweep (no socket
    access, no attribute written). *)
Theorem remove_nonrecording_drops_dead_spans
    (is_recording : SpanRef -> bool) (spanlist : list SpanRef) (tr : list Event) :
  exists b l',
    _remove_nonrecording is_recording spanlist tr =
      (Return b, l', tr ++ replicate (length spanlist - length l') dead_log)
    /\ l' ≡ₚ List.filter is_recording spanlist
    /\ (spanlist <> [] -> (b = false <-> l' = []))
    /\ forall conn loglevel w state,
         recording w = is_recording -> trace w = tr ->
         _getstate w = Some state -> lists w !! state = Some spanlist ->
         spanlist <> [] -> l' = [] ->
         trysetip conn loglevel w =
         (Return true,
          after_sweep w state [] (tr ++ replicate (length spanlist) dead_log)).
Proof.
  destruct (remove_nonrecording_spec is_recording spanlist tr) as (b & l' & Heq & Hperm & Hb).
  exists b, l'. repeat split; try assumption; try (apply Hb; assumption).
  intros conn loglevel w state <- <- Hstate Hl Hne ->.
  assert (b = false) as -> by (apply Hb; auto).
  rewrite (trysetip_swept conn loglevel w state spanlist _ _ _ Hstate Hl Hne Heq).
  cbn. rewrite Nat.sub_0_r. reflexivity.
Qed.

Lemma remove_nonrecording_drops_dead_spans_witness :
  trysetip 0 DEBUG (world_of (fun _ => false) [1; 2]%nat (peer (VStr "10.0.0.5"))) =
  (Return true,
   after_sweep (world_of (fun _ => false) [1; 2]%nat (peer (VStr "10.0.0.5"))) 0 []
     (replicate 2 dead_log)).
Proof.
  destruct (remove_nonrecording_drops_dead_spans (fun _ => false) [1; 2]%nat [])
    as (b & l' & Heq & _ & _ & Htry).
  apply (Htry 0%nat DEBUG (world_of (fun _ => false) [1; 2]%nat (peer (VStr "10.0.0.5"))) 0%nat);
    try reflexivity; [discriminate|].
  apply (f_equal (fun r => snd (fst r))) in Heq. vm_compute in Heq.
  symmetry. exact Heq.
Defined.

(** C3. [trysetip] returns [False] exactly when a connection state is
    present, a recording span is still in its list after the sweep, and the
    connection's socket attribute is [None]; with no state or an empty list
    it returns [True] and leaves the world, trace included, as it was. *)
Theorem trysetip_false_iff_not_connected conn loglevel w :
  (fst (trysetip conn loglevel w) = Return false <->
   exists state l,
     _getstate w = Some state /\ lists w !! state = Some l
     /\ (exists s, s ∈ survivors w l /\ recording w s = true)
     /\ read_sock conn w = Return None)
  /\ (need_ip w = None \/ need_ip w = Some [] ->
      trysetip conn loglevel w = (Return true, w)).
Proof.
  split; [|apply trysetip_nothing_to_do].
  split.
  - intros Hfalse.
    destruct (_getstate w) as [state|] eqn:Hstate;
      [|rewrite trysetip_nothing_to_do in Hfalse
          by (left; unfold need_ip; rewrite Hstate; reflexivity); discriminate].
    destruct (lists w !! state) as [l|] eqn:Hl;
      [|rewrite trysetip_nothing_to_do in Hfalse
          by (left; unfold need_ip; rewrite Hstate; exact Hl); discriminate].
    destruct (decide (l = [])) as [->|Hne];
      [rewrite trysetip_nothing_to_do in Hfalse
          by (right; unfold need_ip; rewrite Hstate; exact Hl); discriminate|].
    destruct (survivors_spec w l) as (b & Heq & Hperm & Hb).
    rewrite (trysetip_swept conn loglevel w state l _ _ _ Hstate Hl Hne Heq) in Hfalse.
    cbv zeta in Hfalse. destruct b; [|discriminate].
    assert (survivors w l <> []) as Hsurv.
    { intros He. apply Hb in He; [discriminate|exact Hne]. }
    exists state, l. split; [reflexivity|]. split; [exact Hl|]. split.
    { destruct (survivors w l) as [|s rest] eqn:Hs; [congruence|].
      exists s. assert (s ∈ survivors w l) as Hin by (rewrite Hs; left).
      split; [rewrite <- Hs; exact Hin|]. apply elem_of_survivors in Hin. tauto. }
    destruct (read_sock conn w) as [[sock|]|e] eqn:Hsock; [exfalso|reflexivity|exfalso].
    + rewrite (try_suite_connected conn _ sock) in Hfalse
        by (rewrite read_sock_after_sweep; exact Hsock).
      cbv zeta in Hfalse.
      destruct (getpeername sock) as [addr|e];
        [destruct (truthy addr);
           [destruct (getitem0 addr) as [first|e]; [destruct (truthy first)|]|]|].
      all: try (destruct (isinstance_Exception e); discriminate).
      all: match type of Hfalse with
           | context [stamp_all ?l ?ip ?w0] => destruct (stamp_all l ip w0) as [[[]|e] w3]
           end; discriminate.
    + rewrite (try_suite_sock_error conn _ e) in Hfalse
        by (rewrite read_sock_after_sweep; exact Hsock).
      destruct (isinstance_Exception e); discriminate.
  - intros (state & l & Hstate & Hl & (s & Hs & _) & Hsock).
    assert (survivors w l <> []) as Hsurv by (intros He; rewrite He in Hs; inversion Hs).
    pose proof (survivors_nonempty w l Hsurv) as Hne.
    destruct (survivors_spec w l) as (b & Heq & _ & Hb).
    assert (b = true) as -> by (destruct b; [reflexivity|]; exfalso; apply Hsurv, Hb; auto).
    rewrite (trysetip_swept conn loglevel w state l _ _ _ Hstate Hl Hne Heq). cbv zeta.
    rewrite try_suite_not_connected by (rewrite read_sock_after_sweep; exact Hsock).
    reflexivity.
Qed.

Lemma trysetip_false_iff_not_connected_witness :
  fst (trysetip 0 DEBUG (world_of (fun _ => true) [1%nat] (Return None))) = Return false
  /\ trysetip 0 DEBUG world_idle = (Return true, world_idle).
Proof.
  split.
  - apply (proj1 (trysetip_false_iff_not_connected 0%nat DEBUG
                    (world_of (fun _ => true) [1%nat] (Return None)))).
    exists 0%nat, [1%nat]. split; [reflexivity|]. split; [reflexivity|]. split.
    + exists 1%nat. split; [|reflexivity]. vm_compute. left.
    + reflexivity.
  - apply (proj2 (trysetip_false_iff_not_connected 0%nat DEBUG world_idle)).
    left. reflexivity.
Defined.

(** C4. With a span still waiting after the sweep, a live socket, and a
    peer address whose first element is truthy, [trysetip] returns [True]
    after setting [NET_PEER_IP] to that first element on every span left
    in the list, which are exactly the recording spans of the list it
    found: nothing else is written, and each such span then carries the
    value. *)
Theorem trysetip_stamps_peer_ip conn loglevel w state l sock addr ip :
  _getstate w = Some state ->
  lists w !! state = Some l ->
  survivors w l <> [] ->
  read_sock conn w = Return (Some sock) ->
  getpeername sock = Return addr ->
  getitem0 addr = Return ip ->
  truthy ip = true ->
  let l' := survivors w l in
  let w' := snd (trysetip conn loglevel w) in
  fst (trysetip conn loglevel w) = Return true
  /\ lists w' !! state = Some l'
  /\ (forall s, s ∈ l' <-> s ∈ l /\ recording w s = true)
  /\ trace w' =
     trace w ++ replicate (length l - length l') dead_log
       ++ probe conn ++ map (stamp ip) l'
  /\ (forall s, s ∈ l' -> span_attribute (trace w') s NET_PEER_IP = Some ip).
Proof.
  intros Hstate Hl Hsurv Hsock Hpeer Hfirst Hip l' w'. subst l' w'.
  rewrite (trysetip_capture conn loglevel w state l sock addr ip) by assumption.
  cbn [fst snd]. split; [reflexivity|].
  split; [apply (lookup_after_sweep w state l); exact Hl|].
  split; [intros s; apply elem_of_survivors|].
  split; [reflexivity|].
  intros s Hs. cbn [after_sweep set_trace trace].
  rewrite !app_assoc. apply span_attribute_stamped. exact Hs.
Qed.

Lemma trysetip_stamps_peer_ip_witness :
  trysetip 0 WARNING
    (world_of Nat.even [1; 2; 3; 4]%nat (peer (VTuple [VStr "10.0.0.5"; VInt 443])))
  = (Return true,
     mkWorld Nat.even [[4; 2]%nat] {[ _STATE_KEY := 0%nat ]}
       {[ 0%nat := peer (VTuple [VStr "10.0.0.5"; VInt 443]) ]}
       ([dead_log; dead_log] ++ probe 0
          ++ [stamp (VStr "10.0.0.5") 4; stamp (VStr "10.0.0.5") 2]%nat))
  /\ span_attribute
       (trace (snd (trysetip 0 WARNING
          (world_of Nat.even [1; 2; 3; 4]%nat (peer (VTuple [VStr "10.0.0.5"; VInt 443]))))))
       2%nat NET_PEER_IP = Some (VStr "10.0.0.5").
Proof.
  split; [vm_compute; reflexivity|].
  refine (proj2 (proj2 (proj2 (proj2
    (trysetip_stamps_peer_ip 0%nat WARNING
       (world_of Nat.even [1; 2; 3; 4]%nat (peer (VTuple [VStr "10.0.0.5"; VInt 443])))
       0%nat [1; 2; 3; 4]%nat
       {| getpeername := Return (VTuple [VStr "10.0.0.5"; VInt 443]) |}
       (VTuple [VStr "10.0.0.5"; VInt 443]) (VStr "10.0.0.5")
       _ _ _ _ _ _ _)))) 2%nat _);
    try reflexivity.
  - vm_compute. discriminate.
  - vm_compute. right. left.
Defined.

(** C7. With no connection state, or an empty list in it, [trysetip]
    returns [True] and hands back the world it was given, trace included:
    no socket was read, nothing was logged, no attribute was written, no
    list was changed.  Calling it again, on any connection and at any
    severity, does the same. *)
Theorem trysetip_idempotent_when_idle conn loglevel conn' loglevel' w :
  need_ip w = None \/ need_ip w = Some [] ->
  trysetip conn loglevel w = (Return true, w)
  /\ (trysetip conn loglevel ;;; trysetip conn' loglevel')%py w = (Return true, w).
Proof.
  intros Hidle. unfold bind.
  rewrite (trysetip_nothing_to_do conn loglevel w Hidle). cbv beta iota.
  rewrite (trysetip_nothing_to_do conn' loglevel' w Hidle). split; reflexivity.
Qed.

Lemma trysetip_idempotent_when_idle_witness :
  trysetip 0 DEBUG (world_of (fun _ => true) [] (peer (VStr "10.0.0.5")))
    = (Return true, world_of (fun _ => true) [] (peer (VStr "10.0.0.5")))
  /\ (trysetip 0 DEBUG ;;; trysetip 0 WARNING)%py
       (world_of (fun _ => true) [] (peer (VStr "10.0.0.5")))
    = (Return true, world_of (fun _ => true) [] (peer (VStr "10.0.0.5"))).
Proof.
  apply trysetip_idempotent_when_idle. right. reflexivity.
Defined.

(** C9. A capture leaves the list in place: after [trysetip] has stamped
    the remaining spans and returned [True], the state still holds exactly
    those spans, and a second call in the world the first one left finds
    them, sweeps nothing, and stamps each of them again. *)
Theorem trysetip_capture_keeps_spanlist conn loglevel loglevel' w state l sock addr ip :
  _getstate w = Some state ->
  lists w !! state = Some l ->
  survivors w l <> [] ->
  read_sock conn w = Return (Some sock) ->
  getpeername sock = Return addr ->
  getitem0 addr = Return ip ->
  truthy ip = true ->
  let l' := survivors w l in
  exists w1 w2,
    trysetip conn loglevel w = (Return true, w1)
    /\ need_ip w1 = Some l' /\ l' <> []
    /\ trysetip conn loglevel' w1 = (Return true, w2)
    /\ need_ip w2 = Some l'
    /\ trace w2 = trace w1 ++ probe conn ++ map (stamp ip) l'.
Proof.
  intros Hstate Hl Hsurv Hsock Hpeer Hfirst Hip l'. subst l'.
  set (l' := survivors w l) in *.
  set (tr1 := trace w ++ replicate (length l - length l') dead_log
                ++ probe conn ++ map (stamp ip) l').
  set (w1 := after_sweep w state l' tr1).
  assert (lists w1 !! state = Some l') as Hl1 by (apply (lookup_after_sweep w state l); exact Hl).
  assert (_getstate w1 = Some state) as Hstate1 by exact Hstate.
  assert (survivors w1 l' = l') as Hkeep.
  { unfold survivors. rewrite remove_nonrecording_all_recording; [reflexivity|].
    destruct (survivors_spec w l) as (b & _ & Hperm & _).
    exact (perm_all_recording (recording w) l l' Hperm). }
  exists w1, (after_sweep w1 state l' (tr1 ++ probe conn ++ map (stamp ip) l')).
  split; [apply (trysetip_capture conn loglevel w state l sock addr ip); assumption|].
  split; [unfold need_ip; rewrite Hstate1; exact Hl1|].
  split; [exact Hsurv|].
  split.
  { rewrite (trysetip_capture conn loglevel' w1 state l' sock addr ip); try assumption.
    - rewrite Hkeep, Nat.sub_diag. reflexivity.
    - rewrite Hkeep. exact Hsurv. }
  split; [|reflexivity].
  unfold need_ip. change (_getstate (after_sweep w1 state l' _)) with (_getstate w).
  rewrite Hstate. apply (lookup_after_sweep w1 state l'). exact Hl1.
Qed.

Lemma trysetip_capture_keeps_spanlist_witness :
  exists w1 w2,
    trysetip 0 DEBUG (world_of Nat.even [1; 2]%nat (peer (VTuple [VStr "10.0.0.5"; VInt 443])))
      = (Return true, w1)
    /\ need_ip w1 = Some [2%nat] /\ [2%nat] <> []
    /\ trysetip 0 WARNING w1 = (Return true, w2)
    /\ need_ip w2 = Some [2%nat]
    /\ trace w2 = trace w1 ++ probe 0 ++ map (stamp (VStr "10.0.0.5")) [2%nat].
Proof.
  refine (trysetip_capture_keeps_spanlist 0%nat DEBUG WARNING
    (world_of Nat.even [1; 2]%nat (peer (VTuple [VStr "10.0.0.5"; VInt 443])))
    0%nat [1; 2]%nat
    {| getpeername := Return (VTuple [VStr "10.0.0.5"; VInt 443]) |}
    (VTuple [VStr "10.0.0.5"; VInt 443]) (VStr "10.0.0.5")
    _ _ _ _ _ _ _); try reflexivity.
  vm_compute. discriminate.
Defined.

(** C10. Each pass through the loop body either leaves the function or
    goes round again having decremented the index, shortened the list, or
    both, so that [idx + len(spanlist)] has gone down; and the loop, started
    at [idx = len(spanlist) - 1], is over within [2 * len(spanlist)] passes:
    run on more fuel than that, it returns what [_remove_nonrecording]
    returns. *)
Theorem remove_nonrecording_terminates is_recording idx spanlist tr :
  (0 <= idx)%Z ->
  match sweep_body is_recording idx spanlist tr with
  | Next idx' spanlist' tr' =>
    (idx' = (idx - 1)%Z /\ length spanlist' = length spanlist
     \/ idx' = idx /\ S (length spanlist') = length spanlist
     \/ idx' = (idx - 1)%Z /\ S (length spanlist') = length spanlist)
    /\ (idx' + Z.of_nat (length spanlist') < idx + Z.of_nat (length spanlist))%Z
  | Exit _ _ _ => True
  end
  /\ forall l tr0 fuel,
       (2 * length l < fuel)%nat ->
       sweep_run is_recording fuel (Z.of_nat (length l) - 1) l tr0 =
       Some (_remove_nonrecording is_recording l tr0).
Proof.
  intros Hidx. split.
  - unfold sweep_body.
    destruct (spanlist !! Z.to_nat idx) as [span|]; [|exact I].
    destruct (is_recording span); cbn [negb]; [split; [left; split; reflexivity|lia]|].
    destruct (idx + 1 =? Z.of_nat (length spanlist))%Z; cbn [negb].
    + pose proof (list_pop_length spanlist) as Hpop.
      destruct (list_pop spanlist) as [l1|]; [|exact I].
      destruct (idx =? 0)%Z; [exact I|].
      split; [right; right; split; [reflexivity|symmetry; exact Hpop]|lia].
    + destruct (spanlist !! (length spanlist - 1)%nat) as [lastspan|]; [|exact I].
      pose proof (list_pop_length (<[Z.to_nat idx:=lastspan]> spanlist)) as Hpop.
      destruct (list_pop (<[Z.to_nat idx:=lastspan]> spanlist)) as [l1|]; [|exact I].
      rewrite length_insert in Hpop.
      split; [right; left; split; [reflexivity|symmetry; exact Hpop]|lia].
  - intros l tr0 fuel Hfuel. unfold _remove_nonrecording.
    apply sweep_run_enough. unfold sweep_measure. lia.
Qed.

Lemma remove_nonrecording_terminates_witness :
  sweep_run Nat.even 7 2 [1; 2; 3]%nat [] = Some (_remove_nonrecording Nat.even [1; 2; 3]%nat []).
Proof.
  refine (proj2 (remove_nonrecording_terminates Nat.even 2 [1; 2; 3]%nat [] _)
            [1; 2; 3]%nat [] 7%nat _).
  - lia.
  - simpl. lia.
Defined.

(** ** Installation and removal of the wrappers *)

(** What the send wrapper does when the attempt before the real send does
    not raise. *)
Lemma instrumented_send_spec {Args R} (wrapped : Args -> M R) instance args w done w1 :
  trysetip instance DEBUG w = (Return done, w1) ->
  instrumented_send Args R wrapped instance args w =
  match wrapped args w1 with
  | (Return result, w2) =>
    if done then (Return result, w2)
    else match trysetip instance WARNING w2 with
         | (Return _, w3) => (Return result, w3)
         | (Raise e, w3) => (Raise e, w3)
         end
  | (Raise e, w2) => (Raise e, w2)
  end.
Proof.
  intros Hpre. unfold instrumented_send, bind, ret. rewrite Hpre.
  destruct (wrapped args w1) as [[result|e] w2]; [|reflexivity].
  destruct done; cbn [negb]; [reflexivity|].
  destruct (trysetip instance WARNING w2) as [[b|e] w3]; reflexivity.
Qed.

Lemma instrumented_connect_spec {Args R} (wrapped : Args -> M R) instance args w :
  _instrumented_connect Args R wrapped instance args w =
  match wrapped args w with
  | (Return result, w1) =>
    match trysetip instance WARNING w1 with
    | (Return _, w2) => (Return result, w2)
    | (Raise e, w2) => (Raise e, w2)
    end
  | (Raise e, w1) => (Raise e, w1)
  end.
Proof.
  unfold _instrumented_connect, bind, ret.
  destruct (wrapped args w) as [[result|e] w1]; [|reflexivity].
  destruct (trysetip instance WARNING w1) as [[b|e] w2]; reflexivity.
Qed.

Lemma instrument_lookup {Args R} (HTTPConnection : gmap string (Attr Args R)) send connect :
  HTTPConnection !! "send" = Some send ->
  HTTPConnection !! "connect" = Some connect ->
  _instrument Args R HTTPConnection =
  Return (<["connect" := FunctionWrapper connect (_instrumented_connect Args R)]>
            (<["send" := FunctionWrapper send (instrumented_send Args R)]> HTTPConnection)).
Proof.
  intros Hsend Hconnect.
  unfold _instrument, instrument_connect, wrap_function_wrapper.
  rewrite Hsend, lookup_insert_ne by discriminate. rewrite Hconnect. reflexivity.
Qed.

(** C6. The claim: after [install()], the wrapped [send] and [connect]
    always run the real call and return its result unchanged, with
    [trysetip] before and, if that returned [False], after the real send,
    and after the real connect.  On the input on which [trysetip] raises
    (see C1) the wrappers do not: the wrapped [send] raises before the real
    send has run, and the wrapped [connect] raises after the real connect,
    whose result is lost. *)
Theorem instrumented_calls_abort_on_unbound_ip :
  let w := world_of (fun _ => true) [1%nat] (peer (VStr "")) in
  exists patched send connect,
    _instrument unit Value HTTPConnection_original = Return patched
    /\ patched !! "send" = Some send
    /\ patched !! "connect" = Some connect
    /\ call send 0%nat tt w = (Raise UnboundLocalError, set_trace (probe 0) w)
    /\ call connect 0%nat tt w =
       (Raise UnboundLocalError, set_trace (EvTransport "connect" 0 :: probe 0) w).
Proof.
  intros w.
  exists (<["connect" := FunctionWrapper (Function (transport "connect"))
                           (_instrumented_connect unit Value)]>
            (<["send" := FunctionWrapper (Function (transport "send"))
                           (instrumented_send unit Value)]> HTTPConnection_original)).
  exists (FunctionWrapper (Function (transport "send")) (instrumented_send unit Value)).
  exists (FunctionWrapper (Function (transport "connect")) (_instrumented_connect unit Value)).
  split; [apply instrument_lookup; reflexivity|].
  split; [reflexivity|]. split; [reflexivity|].
  split; vm_compute; reflexivity.
Qed.

(** C8. On the model of [unwrap], which is not part of this module: on a class
    that has [send] and [connect], [install()] succeeds and puts one
    wrapper around each; the matching [uninstall()] gives back the class
    namespace as it was, so [send] and [connect] are again the functions
    they were and calling them runs nothing of the wrappers. *)
Theorem uninstrument_restores_original {Args R}
    (HTTPConnection : gmap string (Attr Args R)) send connect :
  HTTPConnection !! "send" = Some send ->
  HTTPConnection !! "connect" = Some connect ->
  exists patched,
    _instrument Args R HTTPConnection = Return patched
    /\ patched !! "send" = Some (FunctionWrapper send (instrumented_send Args R))
    /\ patched !! "connect" = Some (FunctionWrapper connect (_instrumented_connect Args R))
    /\ _uninstrument Args R patched = HTTPConnection
    /\ _uninstrument Args R patched !! "send" = Some send
    /\ _uninstrument Args R patched !! "connect" = Some connect.
Proof.
  intros Hsend Hconnect.
  eexists. split; [apply instrument_lookup; eassumption|].
  split; [rewrite lookup_insert_ne by discriminate; apply lookup_insert_eq|].
  split; [apply lookup_insert_eq|].
  assert (_uninstrument Args R
            (<["connect" := FunctionWrapper connect (_instrumented_connect Args R)]>
               (<["send" := FunctionWrapper send (instrumented_send Args R)]> HTTPConnection))
          = HTTPConnection) as Hback.
  { unfold _uninstrument, unwrap.
    rewrite lookup_insert_ne by discriminate. rewrite lookup_insert_eq.
    rewrite lookup_insert_ne by discriminate. rewrite lookup_insert_eq.
    apply map_eq. intros name.
    destruct (decide (name = "connect")) as [->|Hc].
    { rewrite lookup_insert_eq. symmetry. exact Hconnect. }
    rewrite lookup_insert_ne by congruence.
    destruct (decide (name = "send")) as [->|Hs].
    { rewrite lookup_insert_eq. symmetry. exact Hsend. }
    rewrite !lookup_insert_ne by congruence. reflexivity. }
  rewrite Hback. repeat split; assumption.
Qed.

Lemma uninstrument_restores_original_witness :
  exists patched,
    _instrument unit Value HTTPConnection_original = Return patched
    /\ patched !! "send" =
       Some (FunctionWrapper (Function (transport "send")) (instrumented_send unit Value))
    /\ patched !! "connect" =
       Some (FunctionWrapper (Function (transport "connect")) (_instrumented_connect unit Value))
    /\ _uninstrument unit Value patched = HTTPConnection_original
    /\ _uninstrument unit Value patched !! "send" = Some (Function (transport "send"))
    /\ _uninstrument unit Value patched !! "connect" = Some (Function (transport "connect")).
Proof.
  apply uninstrument_restores_original; reflexivity.
Defined.

(** ** The registration scope *)

Lemma list_remove_None x l : list_remove x l = None <-> x ∉ l.
Proof.
  induction l as [|y l IH]; cbn [list_remove].
  - split; [intros _ H; inversion H|reflexivity].
  - destruct (Nat.eqb x y) eqn:Hxy.
    + apply Nat.eqb_eq in Hxy as ->. split; [discriminate|].
      intros H. exfalso. apply H. left.
    + apply Nat.eqb_neq in Hxy.
      destruct (list_remove x l) as [l'|].
      * split; [discriminate|]. intros H. exfalso.
        assert (x ∉ l) as Hl by (intros Hin; apply H; right; exact Hin).
        apply IH in Hl. discriminate.
      * split; [|reflexivity]. intros _ Hin.
        apply elem_of_cons in Hin as [->|Hin]; [congruence|].
        revert Hin. apply IH. reflexivity.
Qed.

Lemma list_remove_Some x l l' :
  list_remove x l = Some l' ->
  count_occ Nat.eq_dec l x = S (count_occ Nat.eq_dec l' x)
  /\ length l = S (length l').
Proof.
  revert l'. induction l as [|y l IH]; intros l'; cbn [list_remove]; [discriminate|].
  destruct (Nat.eqb x y) eqn:Hxy.
  - apply Nat.eqb_eq in Hxy as ->. intros [= ->].
    cbn [count_occ length]. destruct (Nat.eq_dec y y); [|contradiction].
    split; reflexivity.
  - apply Nat.eqb_neq in Hxy.
    destruct (list_remove x l) as [l0|]; [|discriminate].
    intros [= <-]. destruct (IH l0 eq_refl) as [Hc Hlen].
    assert (y <> x) as Hyx by congruence.
    cbn [count_occ length]. destruct (Nat.eq_dec y x); [contradiction|].
    split; congruence.
Qed.

Lemma without_first_absent x l :
  (count_occ Nat.eq_dec l x <= 1)%nat -> x ∉ without_first x l.
Proof.
  unfold without_first. intros Hc.
  destruct (list_remove x l) as [l'|] eqn:Hr; cbn [default].
  - apply list_remove_Some in Hr as [Hr _].
    rewrite list_elem_of_In. apply (count_occ_not_In Nat.eq_dec).
    unfold id, SpanRef in *. lia.
  - apply list_remove_None. exact Hr.
Qed.

Lemma scope_new_state {A} span (body : M A) w :
  _getstate w = None ->
  set_ip_on_next_http_connection span body w =
  (fst (body (scope_entered span w)), set_ctx (ctx w) (snd (body (scope_entered span w)))).
Proof.
  intros Hstate. unfold set_ip_on_next_http_connection, scope_entered.
  rewrite Hstate. unfold bind, attach, try_finally, detach, set_value.
  cbn [ctx set_lists set_ctx].
  destruct (body _) as [r wb]. reflexivity.
Qed.

Lemma scope_shared_state {A} span (body : M A) w spans :
  _getstate w = Some spans ->
  set_ip_on_next_http_connection span body w =
  (fst (body (scope_entered span w)),
   match lists (snd (body (scope_entered span w))) !! spans with
   | Some l =>
     set_lists (fun ls => <[spans := without_first span l]> ls)
       (snd (body (scope_entered span w)))
   | None => snd (body (scope_entered span w))
   end).
Proof.
  intros Hstate. unfold set_ip_on_next_http_connection, scope_entered.
  rewrite Hstate. unfold try_finally, remove_tolerant, without_first.
  destruct (body _) as [r wb]. cbn [fst snd].
  destruct (lists wb !! spans) as [l|] eqn:Hl; [|reflexivity].
  destruct (list_remove span l) as [l'|] eqn:Hr; cbn [default]; [reflexivity|].
  unfold set_lists, id. rewrite list_insert_id by exact Hl. destruct wb. reflexivity.
Qed.

(** C5, as claimed: on every exit of the scope for [s], [s] is no longer a
    member of the list of the current context.  It is not so when [s] was
    waiting already: the scope appends a second reference to [s], and its
    exit takes one out. *)
Lemma scope_exit_keeps_earlier_registration :
  ~ (forall span (body : M unit) w,
       released span (snd (set_ip_on_next_http_connection span body w))).
Proof.
  intros H.
  specialize (H 7%nat (ret tt) (world_of (fun _ => true) [7%nat] (Return None)) [7%nat]).
  apply H; [vm_compute; reflexivity|left].
Qed.

(** C5, amended: the scope ends in the outcome of its suite, whether that
    returned or raised.  If the scope created the state, its exit restores
    the context that was current before, in which there is no connection
    state, so the span is released.  Otherwise its exit takes the first
    occurrence of the span out of the shared list, whatever the suite did to
    that list; a span that is no longer there leaves the list as it is and
    raises nothing; and the span is gone from the list whenever it occurred
    in it at most once. *)
Theorem scope_exit_cleanup {A} span (body : M A) w :
  let entered := scope_entered span w in
  let w' := snd (set_ip_on_next_http_connection span body w) in
  fst (set_ip_on_next_http_connection span body w) = fst (body entered)
  /\ match _getstate w with
     | None =>
       need_ip entered = Some [span]
       /\ ctx w' = ctx w
       /\ released span w'
     | Some spans =>
       ctx w' = ctx (snd (body entered))
       /\ forall l,
            lists (snd (body entered)) !! spans = Some l ->
            lists w' !! spans = Some (without_first span l)
            /\ (span ∉ l -> without_first span l = l)
            /\ ((count_occ Nat.eq_dec l span <= 1)%nat -> span ∉ without_first span l)
     end.
Proof.
  intros entered w'. subst entered w'.
  destruct (_getstate w) as [spans|] eqn:Hstate.
  - rewrite (scope_shared_state span body w spans Hstate). cbn [fst snd].
    split; [reflexivity|]. split.
    { destruct (lists _ !! spans); reflexivity. }
    intros l Hl. rewrite Hl. split.
    { cbn [lists set_lists]. apply list_lookup_insert_eq.
      apply lookup_lt_Some in Hl. exact Hl. }
    split; [|apply without_first_absent].
    intros Habs. unfold without_first.
    apply list_remove_None in Habs. rewrite Habs. reflexivity.
  - rewrite (scope_new_state span body w Hstate). cbn [fst snd].
    split; [reflexivity|]. split.
    { unfold scope_entered. rewrite Hstate.
      unfold need_ip, _getstate, get_value.
      cbn [ctx set_ctx lists set_lists]. rewrite lookup_insert_eq.
      rewrite lookup_app_r by reflexivity. rewrite Nat.sub_diag. reflexivity. }
    split; [reflexivity|].
    intros l. unfold need_ip, _getstate, get_value. cbn [ctx set_ctx].
    unfold _getstate, get_value in Hstate. rewrite Hstate. discriminate.
Qed.

Lemma scope_exit_cleanup_witness :
  lists (snd (set_ip_on_next_http_connection 8%nat
                (trysetip 0 DEBUG ;;; ret tt)%py
                (world_of (fun s => Nat.eqb s 7) [7%nat] (Return None)))) !! 0%nat
  = Some (without_first 8%nat [7%nat])
  /\ without_first 8%nat [7%nat] = [7%nat].
Proof.
  pose proof (scope_exit_cleanup 8%nat (trysetip 0 DEBUG ;;; ret tt)%py
                (world_of (fun s => Nat.eqb s 7) [7%nat] (Return None))) as H.
  cbv zeta in H. destruct H as [_ H].
  change (_getstate (world_of (fun s => Nat.eqb s 7) [7%nat] (Return None)))
    with (Some 0%nat) in H.
  destruct H as [_ H]. specialize (H [7%nat]).
  destruct H as (H1 & H2 & _); [vm_compute; reflexivity|].
  split; [exact H1|]. apply H2.
  intros Hin. apply list_elem_of_singleton in Hin. discriminate.
Defined.

(** ** The paths through [trysetip] *)

Lemma trysetip_after_sweep conn loglevel w state l :
  _getstate w = Some state ->
  lists w !! state = Some l ->
  survivors w l <> [] ->
  trysetip conn loglevel w =
  match try_suite conn (after_sweep w state (survivors w l) (trace w ++ sweep_logs w l)) with
  | (TryReturn b, w2) => (Return b, w2)
  | (TryRaised e, w2) =>
    if isinstance_Exception e
    then (Return true, emit (EvLog loglevel failed_msg) w2)
    else (Raise e, w2)
  | (TryDone ip, w2) =>
    match stamp_all (survivors w l) ip w2 with
    | (Return _, w3) => (Return true, w3)
    | (Raise e, w3) => (Raise e, w3)
    end
  end.
Proof.
  intros Hstate Hl Hsurv.
  destruct (survivors_spec w l) as (b & Heq & _ & Hb).
  pose proof (survivors_nonempty w l Hsurv) as Hne.
  assert (b = true) as -> by (destruct b; [reflexivity|]; exfalso; apply Hsurv, Hb; auto).
  rewrite (trysetip_swept conn loglevel w state l _ _ _ Hstate Hl Hne Heq).
  reflexivity.
Qed.

Lemma trysetip_all_dead conn loglevel w state l :
  _getstate w = Some state ->
  lists w !! state = Some l ->
  l <> [] ->
  survivors w l = [] ->
  ends_in conn loglevel w state l (Return true) [].
Proof.
  intros Hstate Hl Hne Hsurv. unfold ends_in.
  destruct (survivors_spec w l) as (b & Heq & _ & Hb).
  assert (b = false) as -> by (apply Hb; assumption).
  rewrite (trysetip_swept conn loglevel w state l _ _ _ Hstate Hl Hne Heq).
  cbv zeta. unfold sweep_logs. rewrite app_nil_r. reflexivity.
Qed.

Lemma trysetip_not_connected conn loglevel w state l :
  _getstate w = Some state ->
  lists w !! state = Some l ->
  survivors w l <> [] ->
  read_sock conn w = Return None ->
  ends_in conn loglevel w state l (Return false)
    [EvSockRead conn; EvLog DEBUG got_socket_msg].
Proof.
  intros Hstate Hl Hsurv Hsock. unfold ends_in.
  rewrite (trysetip_after_sweep conn loglevel w state l) by assumption.
  rewrite try_suite_not_connected by (rewrite read_sock_after_sweep; exact Hsock).
  unfold after_sweep, set_trace, set_lists. cbn. rewrite <- !app_assoc. reflexivity.
Qed.

Lemma try_suite_raises conn w e seen :
  socket_layer_raises conn w e seen ->
  try_suite conn w = (TryRaised e, set_trace (trace w ++ seen) w).
Proof.
  intros [[Hsock ->]|(sock & Hsock & -> & Hpeer)].
  - apply try_suite_sock_error. exact Hsock.
  - rewrite (try_suite_connected conn w sock Hsock). cbv zeta.
    destruct Hpeer as [Hpeer|(addr & Hpeer & Haddr & Hfirst)].
    + rewrite Hpeer. reflexivity.
    + rewrite Hpeer, Haddr, Hfirst. reflexivity.
Qed.

Lemma trysetip_socket_error_path conn loglevel w state l e seen :
  _getstate w = Some state ->
  lists w !! state = Some l ->
  survivors w l <> [] ->
  socket_layer_raises conn w e seen ->
  if isinstance_Exception e
  then ends_in conn loglevel w state l (Return true) (seen ++ [EvLog loglevel failed_msg])
  else ends_in conn loglevel w state l (Raise e) seen.
Proof.
  intros Hstate Hl Hsurv Hraise. unfold ends_in.
  rewrite (trysetip_after_sweep conn loglevel w state l) by assumption.
  rewrite (try_suite_raises conn _ e seen) by exact Hraise.
  destruct (isinstance_Exception e);
    unfold emit, after_sweep, set_trace, set_lists; cbn; rewrite <- !app_assoc; reflexivity.
Qed.

Lemma trysetip_capture_path conn loglevel w state l ip :
  _getstate w = Some state ->
  lists w !! state = Some l ->
  survivors w l <> [] ->
  peer_ip conn w ip ->
  ends_in conn loglevel w state l (Return true)
    (probe conn ++ map (stamp ip) (survivors w l)).
Proof.
  intros Hstate Hl Hsurv (sock & addr & Hsock & Hpeer & Hfirst & Hip).
  unfold ends_in, sweep_logs.
  apply (trysetip_capture conn loglevel w state l sock addr ip); assumption.
Qed.

Lemma trysetip_unbound_path conn loglevel w state l :
  _getstate w = Some state ->
  lists w !! state = Some l ->
  survivors w l <> [] ->
  peer_ip_unbound conn w ->
  ends_in conn loglevel w state l (Raise UnboundLocalError) (probe conn).
Proof.
  intros Hstate Hl Hsurv (sock & addr & Hsock & Hpeer & Hfalsy).
  unfold ends_in.
  rewrite (trysetip_after_sweep conn loglevel w state l) by assumption.
  rewrite (try_suite_connected conn _ sock) by (rewrite read_sock_after_sweep; exact Hsock).
  cbv zeta. rewrite Hpeer.
  destruct (survivors w l) as [|s rest] eqn:Hs; [congruence|].
  assert (forall w0, stamp_all (s :: rest) None w0 = (Raise UnboundLocalError, w0)) as Hraise
    by reflexivity.
  destruct Hfalsy as [Haddr|(first & Hfirst & Hfalse)].
  - rewrite Haddr, Hraise.
    unfold after_sweep, set_trace, set_lists. cbn. rewrite <- !app_assoc. reflexivity.
  - rewrite (getitem0_truthy _ _ Hfirst), Hfirst, Hfalse, Hraise.
    unfold after_sweep, set_trace, set_lists. cbn. rewrite <- !app_assoc. reflexivity.
Qed.

(** What the socket layer does is one of four things. *)
Lemma socket_layer_cases conn w :
  read_sock conn w = Return None
  \/ (exists e seen, socket_layer_raises conn w e seen)
  \/ (exists ip, peer_ip conn w ip)
  \/ peer_ip_unbound conn w.
Proof.
  destruct (read_sock conn w) as [[sock|]|e] eqn:Hsock.
  - destruct (getpeername sock) as [addr|e] eqn:Hpeer.
    + destruct (truthy addr) eqn:Haddr.
      * destruct (getitem0 addr) as [first|e] eqn:Hfirst.
        { destruct (truthy first) eqn:Hip.
          - right; right; left. exists first, sock, addr. auto.
          - right; right; right. exists sock, addr. eauto 10. }
        right; left. exists e, (probe conn). right. exists sock. eauto 10.
      * right; right; right. exists sock, addr. auto.
    + right; left. exists e, (probe conn). right. exists sock. auto.
  - left. reflexivity.
  - right; left. exists e, [EvSockRead conn]. left. auto.
Qed.

(** Every call of [trysetip] that finds a non-empty list takes one of the
    paths above. *)
Lemma trysetip_paths conn loglevel w state l :
  _getstate w = Some state ->
  lists w !! state = Some l ->
  l <> [] ->
  (survivors w l = [] /\ ends_in conn loglevel w state l (Return true) [])
  \/ (survivors w l <> []
      /\ ((read_sock conn w = Return None
           /\ ends_in conn loglevel w state l (Return false)
                [EvSockRead conn; EvLog DEBUG got_socket_msg])
          \/ (exists e seen,
                socket_layer_raises conn w e seen /\ isinstance_Exception e = true
                /\ ends_in conn loglevel w state l (Return true)
                     (seen ++ [EvLog loglevel failed_msg]))
          \/ (exists e seen,
                socket_layer_raises conn w e seen /\ isinstance_Exception e = false
                /\ ends_in conn loglevel w state l (Raise e) seen)
          \/ (exists ip,
                peer_ip conn w ip
                /\ ends_in conn loglevel w state l (Return true)
                     (probe conn ++ map (stamp ip) (survivors w l)))
          \/ (peer_ip_unbound conn w
              /\ ends_in conn loglevel w state l (Raise UnboundLocalError) (probe conn)))).
Proof.
  intros Hstate Hl Hne.
  destruct (decide (survivors w l = [])) as [Hsurv|Hsurv].
  { left. split; [exact Hsurv|]. apply trysetip_all_dead; assumption. }
  right. split; [exact Hsurv|].
  destruct (socket_layer_cases conn w) as [Hnone|[(e & seen & Hraise)|[(ip & Hip)|Hunbound]]].
  - left. split; [exact Hnone|]. apply trysetip_not_connected; assumption.
  - pose proof (trysetip_socket_error_path conn loglevel w state l e seen
                  Hstate Hl Hsurv Hraise) as Hpath.
    destruct (isinstance_Exception e) eqn:He.
    + right; left. exists e, seen. auto.
    + right; right; left. exists e, seen. auto.
  - right; right; right; left. exists ip. split; [exact Hip|].
    apply trysetip_capture_path; assumption.
  - right; right; right; right. split; [exact Hunbound|].
    apply trysetip_unbound_path; assumption.
Qed.

Lemma need_ip_state w l :
  need_ip w = Some l ->
  exists state, _getstate w = Some state /\ lists w !! state = Some l.
Proof.
  unfold need_ip. destruct (_getstate w) as [state|]; [|discriminate].
  intros Hl. exists state. split; [reflexivity|exact Hl].
Qed.

Lemma need_ip_after_sweep w state l l' tr :
  _getstate w = Some state ->
  lists w !! state = Some l ->
  need_ip (after_sweep w state l' tr) = Some l'.
Proof.
  intros Hstate Hl. unfold need_ip.
  change (_getstate (after_sweep w state l' tr)) with (_getstate w).
  rewrite Hstate. apply (lookup_after_sweep w state l). exact Hl.
Qed.

Lemma survivors_nil w : survivors w [] = [].
Proof.
  destruct (survivors_spec w []) as (b & _ & Hperm & _).
  apply Permutation_nil. symmetry. exact Hperm.
Qed.

Ltac may_emit_one :=
  cbn;
  first [ reflexivity
        | left; split; [reflexivity|first [left; reflexivity|right; reflexivity]]
        | right; split; reflexivity ].

Ltac may_emit_all :=
  repeat first [ exact (List.Forall_nil _) | apply List.Forall_cons; [may_emit_one|] ].

Lemma sweep_logs_may_emit conn loglevel w l :
  Forall (may_emit conn loglevel w l) (sweep_logs w l).
Proof.
  unfold sweep_logs. apply Forall_replicate. cbn. left. split; [reflexivity|left; reflexivity].
Qed.

Lemma seen_may_emit conn loglevel w l e seen :
  socket_layer_raises conn w e seen ->
  Forall (may_emit conn loglevel w l) seen.
Proof.
  intros [[_ ->]|(sock & _ & -> & _)]; unfold probe; may_emit_all.
Qed.

Lemma probe_may_emit conn loglevel w l :
  Forall (may_emit conn loglevel w l) (probe conn).
Proof. unfold probe; may_emit_all. Qed.

Lemma stamps_may_emit conn loglevel w l ip :
  Forall (may_emit conn loglevel w l) (map (stamp ip) (survivors w l)).
Proof.
  apply Forall_forall. intros ev Hev.
  apply list_elem_of_In, in_map_iff in Hev as (s & <- & Hs).
  apply list_elem_of_In, elem_of_survivors in Hs as [Hin Hrec].
  cbn. auto.
Qed.

(** Whatever [trysetip] does, it does after the sweep and within
    [may_emit]. *)
Lemma trysetip_effect conn loglevel w :
  (trysetip conn loglevel w = (Return true, w)
   /\ (need_ip w = None \/ need_ip w = Some []))
  \/ exists state l r ext,
       _getstate w = Some state /\ lists w !! state = Some l /\ l <> []
       /\ ends_in conn loglevel w state l r ext
       /\ Forall (may_emit conn loglevel w l) (sweep_logs w l ++ ext).
Proof.
  destruct (need_ip w) as [l|] eqn:Hneed;
    [|left; split; [apply trysetip_nothing_to_do; left; exact Hneed|left; reflexivity]].
  destruct (decide (l = [])) as [->|Hne];
    [left; split; [apply trysetip_nothing_to_do; right; exact Hneed|right; reflexivity]|].
  right. destruct (need_ip_state w l Hneed) as (state & Hstate & Hl).
  exists state, l.
  destruct (trysetip_paths conn loglevel w state l Hstate Hl Hne)
    as [[_ Hend]|[_ [[_ Hend]|[(e & seen & Hraise & _ & Hend)|[(e & seen & Hraise & _ & Hend)
         |[(ip & _ & Hend)|[_ Hend]]]]]]];
    eexists _, _; (split; [exact Hstate|]); (split; [exact Hl|]); (split; [exact Hne|]);
    (split; [exact Hend|]);
    repeat apply Forall_app_2;
    try apply sweep_logs_may_emit; try apply probe_may_emit; try apply stamps_may_emit;
    try (eapply seen_may_emit; exact Hraise);
    may_emit_all.
Qed.

(** ** More on [trysetip] *)

(** X1. When reading [conn.sock], [getpeername()] or the indexing of the
    address raises while a recording span is waiting, [trysetip] has swept
    the list and made the calls up to the failure; an error that is an
    [Exception] is then logged once, at the level the caller gave, and
    answered with [True]; any other error goes on to the caller, unlogged.
    No attribute is written either way. *)
Theorem trysetip_socket_error conn loglevel w l e seen :
  need_ip w = Some l ->
  survivors w l <> [] ->
  socket_layer_raises conn w e seen ->
  let caught := isinstance_Exception e in
  fst (trysetip conn loglevel w) = (if caught then Return true else Raise e)
  /\ trace (snd (trysetip conn loglevel w)) =
     trace w ++ sweep_logs w l ++ seen
       ++ (if caught then [EvLog loglevel failed_msg] else [])
  /\ need_ip (snd (trysetip conn loglevel w)) = Some (survivors w l).
Proof.
  intros Hneed Hsurv Hraise caught. subst caught.
  destruct (need_ip_state w l Hneed) as (state & Hstate & Hl).
  pose proof (trysetip_socket_error_path conn loglevel w state l e seen
                Hstate Hl Hsurv Hraise) as Hpath.
  destruct (isinstance_Exception e); unfold ends_in in Hpath; rewrite Hpath; cbn [fst snd].
  - split; [reflexivity|]. split; [reflexivity|].
    apply (need_ip_after_sweep w state l); assumption.
  - split; [reflexivity|]. split; [rewrite app_nil_r; reflexivity|].
    apply (need_ip_after_sweep w state l); assumption.
Qed.

Lemma trysetip_socket_error_witness :
  fst (trysetip 0 WARNING (world_of (fun _ => true) [1%nat]
         (Return (Some {| getpeername := Raise OSError |})))) = Return true
  /\ fst (trysetip 0 WARNING (world_of (fun _ => true) [1%nat] (Raise KeyboardInterrupt)))
     = Raise KeyboardInterrupt.
Proof.
  split.
  - refine (proj1 (trysetip_socket_error 0%nat WARNING
      (world_of (fun _ => true) [1%nat] (Return (Some {| getpeername := Raise OSError |})))
      [1%nat] OSError (probe 0) _ _ _)).
    + reflexivity.
    + vm_compute. discriminate.
    + right. exists {| getpeername := Raise OSError |}.
      split; [reflexivity|]. split; [reflexivity|]. left. reflexivity.
  - refine (proj1 (trysetip_socket_error 0%nat WARNING
      (world_of (fun _ => true) [1%nat] (Raise KeyboardInterrupt))
      [1%nat] KeyboardInterrupt [EvSockRead 0] _ _ _)).
    + reflexivity.
    + vm_compute. discriminate.
    + left. split; reflexivity.
Defined.

(** X2. [trysetip] raises in two situations only, both with a recording
    span waiting: the peer address is falsy or starts with something falsy,
    and the error is [UnboundLocalError]; or the socket layer raised an
    error that is not an [Exception], and that error comes out. *)
Theorem trysetip_raises_iff conn loglevel w e :
  fst (trysetip conn loglevel w) = Raise e <->
  exists l,
    need_ip w = Some l /\ survivors w l <> []
    /\ ((peer_ip_unbound conn w /\ e = UnboundLocalError)
        \/ exists seen,
             socket_layer_raises conn w e seen /\ isinstance_Exception e = false).
Proof.
  split.
  - intros Hraise.
    destruct (trysetip_effect conn loglevel w) as [[Heq _]|(state & l & r & ext & Hstate & Hl & Hne & _)];
      [rewrite Heq in Hraise; discriminate|].
    exists l. split; [unfold need_ip; rewrite Hstate; exact Hl|].
    destruct (trysetip_paths conn loglevel w state l Hstate Hl Hne)
      as [[_ Hend]|[Hsurv [[_ Hend]|[(e' & seen & _ & _ & Hend)|[(e' & seen & Hr & He & Hend)
           |[(ip & _ & Hend)|[Hunbound Hend]]]]]]];
      unfold ends_in in Hend; rewrite Hend in Hraise; cbn [fst] in Hraise;
      try discriminate; injection Hraise as <-.
    + split; [exact Hsurv|]. right. exists seen. auto.
    + split; [exact Hsurv|]. left. auto.
  - intros (l & Hneed & Hsurv & Hcase).
    destruct (need_ip_state w l Hneed) as (state & Hstate & Hl).
    destruct Hcase as [[Hunbound ->]|(seen & Hr & He)].
    + rewrite (trysetip_unbound_path conn loglevel w state l Hstate Hl Hsurv Hunbound).
      reflexivity.
    + pose proof (trysetip_socket_error_path conn loglevel w state l e seen
                    Hstate Hl Hsurv Hr) as Hpath.
      rewrite He in Hpath. rewrite Hpath. reflexivity.
Qed.

Lemma trysetip_raises_iff_witness :
  fst (trysetip 0 DEBUG (world_of (fun _ => true) [1%nat] (peer (VTuple [VStr ""; VInt 80]))))
  = Raise UnboundLocalError.
Proof.
  apply (proj2 (trysetip_raises_iff 0%nat DEBUG
                  (world_of (fun _ => true) [1%nat] (peer (VTuple [VStr ""; VInt 80])))
                  UnboundLocalError)).
  exists [1%nat]. split; [reflexivity|]. split; [vm_compute; discriminate|].
  left. split; [|reflexivity].
  exists {| getpeername := Return (VTuple [VStr ""; VInt 80]) |}, (VTuple [VStr ""; VInt 80]).
  split; [reflexivity|]. split; [reflexivity|]. right.
  exists (VStr ""). split; reflexivity.
Defined.

(** X3. Whatever [trysetip] returns or raises, it leaves the ambient
    context, the recording state of every span and every connection's socket
    as they were; it creates no list and changes none but the waiting list
    of the current context; and it only adds to the trace. *)
Theorem trysetip_frame conn loglevel w :
  let w' := snd (trysetip conn loglevel w) in
  ctx w' = ctx w
  /\ recording w' = recording w
  /\ conns w' = conns w
  /\ length (lists w') = length (lists w)
  /\ (forall loc, _getstate w <> Some loc -> lists w' !! loc = lists w !! loc)
  /\ exists ext, trace w' = trace w ++ ext.
Proof.
  intros w'. subst w'.
  destruct (trysetip_effect conn loglevel w)
    as [[Heq _]|(state & l & r & ext & Hstate & Hl & Hne & Hend & _)].
  - rewrite Heq. cbn [snd]. repeat split; try reflexivity.
    exists []. rewrite app_nil_r. reflexivity.
  - unfold ends_in in Hend. rewrite Hend. cbn [snd].
    split; [reflexivity|]. split; [reflexivity|]. split; [reflexivity|].
    split; [cbn; apply length_insert|].
    split.
    + intros loc Hloc. cbn. apply list_lookup_insert_ne. congruence.
    + exists (sweep_logs w l ++ ext). reflexivity.
Qed.

Lemma trysetip_frame_witness :
  lists (snd (trysetip 0 DEBUG
                (mkWorld (fun _ => false) [[1%nat]; [2%nat]] {[ _STATE_KEY := 0%nat ]} ∅ [])))
    !! 1%nat = Some [2%nat].
Proof.
  refine (proj1 (proj2 (proj2 (proj2 (proj2
    (trysetip_frame 0%nat DEBUG
       (mkWorld (fun _ => false) [[1%nat]; [2%nat]] {[ _STATE_KEY := 0%nat ]} ∅ []))))))
    1%nat _).
  vm_compute. discriminate.
Defined.

(** X4. The calls [trysetip] makes are of these kinds only: the debug line
    of a dropped span and the debug line about the socket, the failure line
    at the caller's level, a read of the socket of the connection it was
    given and a peer-address query on it, and [set_attribute] of
    [NET_PEER_IP] on a span that is in the waiting list and recording.  It
    never writes to a span that is not recording or not waiting, never
    touches another connection, and never calls the transport. *)
Theorem trysetip_only_emits conn loglevel w :
  exists ext,
    trace (snd (trysetip conn loglevel w)) = trace w ++ ext
    /\ Forall (may_emit conn loglevel w (default [] (need_ip w))) ext.
Proof.
  destruct (trysetip_effect conn loglevel w)
    as [[Heq _]|(state & l & r & ext & Hstate & Hl & Hne & Hend & Hall)].
  - exists []. rewrite Heq. cbn [snd]. rewrite app_nil_r.
    split; [reflexivity|constructor].
  - exists (sweep_logs w l ++ ext). unfold ends_in in Hend. rewrite Hend.
    split; [reflexivity|].
    unfold need_ip. rewrite Hstate, Hl. exact Hall.
Qed.

(** X5. After a call of [trysetip], however it ends, the waiting list of
    the current context holds the spans of the list before the call that
    are recording, and no others. *)
Theorem trysetip_leaves_recording_spans conn loglevel w l :
  need_ip w = Some l ->
  exists l',
    need_ip (snd (trysetip conn loglevel w)) = Some l'
    /\ l' ≡ₚ List.filter (recording w) l
    /\ forall s, s ∈ l' <-> s ∈ l /\ recording w s = true.
Proof.
  intros Hneed. exists (survivors w l).
  split; [|split; [destruct (survivors_spec w l) as (b & _ & Hperm & _); exact Hperm
                  |intros s; apply elem_of_survivors]].
  destruct (trysetip_effect conn loglevel w)
    as [[Heq [Hnone|Hnil]]|(state & l0 & r & ext & Hstate & Hl & Hne & Hend & _)].
  - congruence.
  - rewrite Heq. cbn [snd]. rewrite Hneed in Hnil. injection Hnil as ->.
    rewrite survivors_nil. exact Hneed.
  - assert (l0 = l) as -> by (unfold need_ip in Hneed; rewrite Hstate, Hl in Hneed; congruence).
    unfold ends_in in Hend. rewrite Hend. cbn [snd].
    apply (need_ip_after_sweep w state l); assumption.
Qed.

Lemma trysetip_leaves_recording_spans_witness :
  exists l',
    need_ip (snd (trysetip 0 DEBUG (world_of Nat.even [1; 2; 3]%nat (Raise OSError))))
      = Some l'
    /\ l' ≡ₚ List.filter Nat.even [1; 2; 3]%nat
    /\ forall s, s ∈ l' <-> s ∈ [1; 2; 3]%nat /\ Nat.even s = true.
Proof.
  apply (trysetip_leaves_recording_spans 0%nat DEBUG
           (world_of Nat.even [1; 2; 3]%nat (Raise OSError)) [1; 2; 3]%nat).
  reflexivity.
Defined.

(** X6. The sweep is idempotent: run again on the list it left, at any
    later point of the trace, it changes nothing in the list and logs
    nothing; and it returns [True], also when the first run had emptied the
    list and returned [False]. *)
Theorem remove_nonrecording_idempotent is_recording spanlist tr tr' :
  _remove_nonrecording is_recording
    (snd (fst (_remove_nonrecording is_recording spanlist tr))) tr' =
  (Return true, snd (fst (_remove_nonrecording is_recording spanlist tr)), tr').
Proof.
  destruct (remove_nonrecording_spec is_recording spanlist tr) as (b & l' & Heq & Hperm & _).
  rewrite Heq. cbn [fst snd].
  apply remove_nonrecording_all_recording.
  exact (perm_all_recording is_recording spanlist l' Hperm).
Qed.

(** ** More on the registration scope and the wrappers *)

Lemma without_first_cons s y rest :
  without_first s (y :: rest) = if Nat.eqb s y then rest else y :: without_first s rest.
Proof.
  unfold without_first. cbn [list_remove].
  destruct (Nat.eqb s y); [reflexivity|].
  destruct (list_remove s rest); reflexivity.
Qed.

Lemma without_first_snoc s l :
  without_first s (l ++ [s]) ≡ₚ l /\ (s ∉ l -> without_first s (l ++ [s]) = l).
Proof.
  induction l as [|y l [IHp IHe]].
  - cbn [app]. rewrite without_first_cons, Nat.eqb_refl. split; reflexivity.
  - cbn [app]. rewrite without_first_cons.
    destruct (Nat.eqb s y) eqn:Hsy.
    + apply Nat.eqb_eq in Hsy as ->. split.
      * symmetry. apply Permutation_cons_append.
      * intros Habs. exfalso. apply Habs. left.
    + split.
      * rewrite IHp. reflexivity.
      * intros Habs. rewrite IHe; [reflexivity|].
        intros Hin. apply Habs. right. exact Hin.
Qed.

Lemma scope_entered_new span w :
  _getstate w = None ->
  scope_entered span w =
  mkWorld (recording w) (lists w ++ [[span]])
    (<[_STATE_KEY := length (lists w)]> (ctx w)) (conns w) (trace w).
Proof. intros Hstate. unfold scope_entered. rewrite Hstate. reflexivity. Qed.

Lemma scope_entered_shared span w spans :
  _getstate w = Some spans ->
  scope_entered span w =
  mkWorld (recording w) (alter (fun l => l ++ [span]) spans (lists w))
    (ctx w) (conns w) (trace w).
Proof. intros Hstate. unfold scope_entered. rewrite Hstate. reflexivity. Qed.

Lemma need_ip_entered_new span w :
  _getstate w = None ->
  _getstate (scope_entered span w) = Some (length (lists w))
  /\ lists (scope_entered span w) !! length (lists w) = Some [span].
Proof.
  intros Hstate. rewrite (scope_entered_new span w Hstate).
  unfold _getstate, get_value. cbn [ctx lists]. split.
  - apply lookup_insert_eq.
  - rewrite lookup_app_r by reflexivity. rewrite Nat.sub_diag. reflexivity.
Qed.

Lemma need_ip_entered_shared span w spans l :
  _getstate w = Some spans ->
  lists w !! spans = Some l ->
  _getstate (scope_entered span w) = Some spans
  /\ lists (scope_entered span w) !! spans = Some (l ++ [span]).
Proof.
  intros Hstate Hl. rewrite (scope_entered_shared span w spans Hstate).
  split; [exact Hstate|]. cbn [lists].
  pose proof (list_lookup_alter_eq (fun l0 => l0 ++ [span]) (lists w) spans) as Halter.
  unfold Loc in *. rewrite Hl in Halter. exact Halter.
Qed.

Lemma survivors_all_recording w l :
  all_recording (recording w) l ->
  survivors w l = l /\ sweep_logs w l = [].
Proof.
  intros Hall. unfold sweep_logs, survivors.
  rewrite remove_nonrecording_all_recording by exact Hall.
  cbn [fst snd]. rewrite Nat.sub_diag. split; reflexivity.
Qed.

(** X7. The scope is a round trip on a state it found: if its suite leaves
    the shared list as the entry made it, the exit leaves the list with the
    spans it had before the scope was opened, as a multiset, and exactly as
    it was when the span was not in it already. *)
Theorem scope_round_trip {A} span (body : M A) w spans l :
  _getstate w = Some spans ->
  lists w !! spans = Some l ->
  lists (snd (body (scope_entered span w))) !! spans = lists (scope_entered span w) !! spans ->
  exists l',
    lists (snd (set_ip_on_next_http_connection span body w)) !! spans = Some l'
    /\ l' ≡ₚ l
    /\ (span ∉ l -> l' = l).
Proof.
  intros Hstate Hl Hbody.
  destruct (need_ip_entered_shared span w spans l Hstate Hl) as [_ Hentered].
  rewrite Hentered in Hbody.
  exists (without_first span (l ++ [span])).
  split; [|apply without_first_snoc].
  rewrite (scope_shared_state span body w spans Hstate). cbn [snd].
  rewrite Hbody. cbn [lists set_lists].
  apply list_lookup_insert_eq. apply lookup_lt_Some in Hbody. exact Hbody.
Qed.

Lemma scope_round_trip_witness :
  exists l',
    lists (snd (set_ip_on_next_http_connection 2%nat (ret tt)
                  (world_of (fun _ => true) [1%nat] (Return None)))) !! 0%nat = Some l'
    /\ l' ≡ₚ [1%nat]
    /\ (2%nat ∉ [1%nat] -> l' = [1%nat]).
Proof.
  apply (scope_round_trip 2%nat (ret tt)
           (world_of (fun _ => true) [1%nat] (Return None)) 0%nat [1%nat]);
    reflexivity.
Defined.

(** X8. With no span waiting, the wrappers are transparent: the wrapped
    [send] does exactly what the real [send] does, result, exception and
    world alike, when nothing waits as it is called; so does the wrapped
    [connect] when nothing waits as the real [connect] comes back. *)
Theorem wrappers_transparent_when_idle {Args R} (wrapped : Args -> M R) instance args w :
  (need_ip w = None \/ need_ip w = Some [] ->
   instrumented_send Args R wrapped instance args w = wrapped args w)
  /\ (need_ip (snd (wrapped args w)) = None \/ need_ip (snd (wrapped args w)) = Some [] ->
      _instrumented_connect Args R wrapped instance args w = wrapped args w).
Proof.
  split.
  - intros Hidle.
    rewrite (instrumented_send_spec wrapped instance args w true w)
      by (apply trysetip_nothing_to_do; exact Hidle).
    destruct (wrapped args w) as [[result|e] w2]; reflexivity.
  - intros Hidle. rewrite instrumented_connect_spec.
    destruct (wrapped args w) as [[result|e] w1]; [|reflexivity].
    cbn [snd] in Hidle. rewrite (trysetip_nothing_to_do instance WARNING w1 Hidle).
    reflexivity.
Qed.

Lemma wrappers_transparent_when_idle_witness :
  instrumented_send unit Value (transport "send" 0%nat) 0%nat tt world_idle
    = transport "send" 0%nat tt world_idle
  /\ _instrumented_connect unit Value (transport "connect" 0%nat) 0%nat tt world_idle
     = transport "connect" 0%nat tt world_idle.
Proof.
  split.
  - apply (proj1 (wrappers_transparent_when_idle (transport "send" 0%nat) 0%nat tt world_idle)).
    left. reflexivity.
  - apply (proj2 (wrappers_transparent_when_idle (transport "connect" 0%nat) 0%nat tt world_idle)).
    left. reflexivity.
Defined.

Lemma trysetip_false_world conn loglevel w w1 :
  trysetip conn loglevel w = (Return false, w1) ->
  exists state l,
    _getstate w = Some state /\ lists w !! state = Some l
    /\ survivors w l <> []
    /\ w1 = after_sweep w state (survivors w l)
              (trace w ++ sweep_logs w l ++ [EvSockRead conn; EvLog DEBUG got_socket_msg]).
Proof.
  intros Hpre.
  destruct (trysetip_effect conn loglevel w)
    as [[Heq _]|(state & l & r & ext & Hstate & Hl & Hne & _)]; [congruence|].
  exists state, l. split; [exact Hstate|]. split; [exact Hl|].
  destruct (trysetip_paths conn loglevel w state l Hstate Hl Hne)
    as [[_ Hend]|[Hsurv [[_ Hend]|[(e' & seen & _ & _ & Hend)|[(e' & seen & _ & _ & Hend)
         |[(ip & _ & Hend)|[_ Hend]]]]]]];
    unfold ends_in in Hend; rewrite Hend in Hpre; try discriminate.
  split; [exact Hsurv|]. injection Hpre as <-. reflexivity.
Qed.

Lemma trysetip_capture_all_recording conn loglevel w l ip :
  need_ip w = Some l ->
  l <> [] ->
  all_recording (recording w) l ->
  peer_ip conn w ip ->
  exists w',
    trysetip conn loglevel w = (Return true, w')
    /\ need_ip w' = Some l
    /\ ctx w' = ctx w
    /\ lists w' = lists w
    /\ trace w' = trace w ++ probe conn ++ map (stamp ip) l.
Proof.
  intros Hneed Hne Hall Hip.
  destruct (need_ip_state w l Hneed) as (state & Hstate & Hl).
  destruct (survivors_all_recording w l Hall) as [Hsurv Hlogs].
  assert (survivors w l <> []) as Hsurv' by (rewrite Hsurv; exact Hne).
  pose proof (trysetip_capture_path conn loglevel w state l ip Hstate Hl Hsurv' Hip) as Hend.
  unfold ends_in in Hend. rewrite Hsurv, Hlogs in Hend. cbn [app] in Hend.
  eexists. split; [exact Hend|].
  split; [apply (need_ip_after_sweep w state l); assumption|].
  split; [reflexivity|]. split; [|reflexivity].
  cbn. apply list_insert_id. exact Hl.
Qed.

(** X9. The retry around [send]: when the attempt before the real send
    returns [False] (a span is waiting, the socket is not there yet), and
    the real send returns having opened a socket whose peer address starts
    with a truthy [ip], left the waiting list alone and the waiting spans
    recording, the wrapped send returns the real result after a second
    attempt that sets [NET_PEER_IP] to [ip] on every waiting span. *)
Theorem send_retry_captures {Args R} (wrapped : Args -> M R) instance args w w1 result w2 ip :
  trysetip instance DEBUG w = (Return false, w1) ->
  wrapped args w1 = (Return result, w2) ->
  need_ip w2 = need_ip w1 ->
  (forall l s, need_ip w1 = Some l -> s ∈ l -> recording w2 s = true) ->
  peer_ip instance w2 ip ->
  exists w3 l,
    instrumented_send Args R wrapped instance args w = (Return result, w3)
    /\ need_ip w3 = Some l /\ l <> []
    /\ (forall s, s ∈ l <-> s ∈ default [] (need_ip w) /\ recording w s = true)
    /\ trace w3 = trace w2 ++ probe instance ++ map (stamp ip) l
    /\ forall s, s ∈ l -> span_attribute (trace w3) s NET_PEER_IP = Some ip.
Proof.
  intros Hpre Hreal Hkeep Hrec Hip.
  destruct (trysetip_false_world instance DEBUG w w1 Hpre)
    as (state & l & Hstate & Hl & Hsurv & ->).
  set (w1 := after_sweep w state (survivors w l) _) in *.
  assert (need_ip w1 = Some (survivors w l)) as Hneed1
    by (apply (need_ip_after_sweep w state l); assumption).
  assert (all_recording (recording w2) (survivors w l)) as Hall.
  { apply Forall_forall. intros s Hs. exact (Hrec _ s Hneed1 Hs). }
  rewrite Hneed1 in Hkeep.
  destruct (trysetip_capture_all_recording instance WARNING w2 (survivors w l) ip
              Hkeep Hsurv Hall Hip) as (w3 & Hpost & Hneed3 & _ & _ & Htrace).
  exists w3, (survivors w l).
  rewrite (instrumented_send_spec wrapped instance args w false w1 Hpre).
  rewrite Hreal, Hpost.
  split; [reflexivity|]. split; [exact Hneed3|]. split; [exact Hsurv|].
  split.
  { intros s. unfold need_ip. rewrite Hstate, Hl. apply elem_of_survivors. }
  split; [exact Htrace|].
  intros s Hs. rewrite Htrace, app_assoc. apply span_attribute_stamped. exact Hs.
Qed.

Lemma send_retry_captures_witness :
  exists w3 l,
    instrumented_send unit Value
      (opening "send" (VTuple [VStr "10.0.0.5"; VInt 443]) 0%nat) 0%nat tt
      (world_of (fun _ => true) [1%nat] (Return None)) = (Return VNone, w3)
    /\ need_ip w3 = Some l /\ l <> []
    /\ (forall s, s ∈ l <->
          s ∈ default [] (need_ip (world_of (fun _ => true) [1%nat] (Return None)))
          /\ true = true)
    /\ trace w3 =
       trace (snd (opening "send" (VTuple [VStr "10.0.0.5"; VInt 443]) 0%nat tt
                     (snd (trysetip 0 DEBUG (world_of (fun _ => true) [1%nat] (Return None))))))
         ++ probe 0 ++ map (stamp (VStr "10.0.0.5")) l
    /\ forall s, s ∈ l -> span_attribute (trace w3) s NET_PEER_IP = Some (VStr "10.0.0.5").
Proof.
  refine (send_retry_captures
    (opening "send" (VTuple [VStr "10.0.0.5"; VInt 443]) 0%nat) 0%nat tt
    (world_of (fun _ => true) [1%nat] (Return None))
    (snd (trysetip 0 DEBUG (world_of (fun _ => true) [1%nat] (Return None))))
    VNone
    (snd (opening "send" (VTuple [VStr "10.0.0.5"; VInt 443]) 0%nat tt
            (snd (trysetip 0 DEBUG (world_of (fun _ => true) [1%nat] (Return None))))))
    (VStr "10.0.0.5") _ _ _ _ _).
  - vm_compute. reflexivity.
  - reflexivity.
  - reflexivity.
  - intros l s _ _. reflexivity.
  - exists {| getpeername := Return (VTuple [VStr "10.0.0.5"; VInt 443]) |},
      (VTuple [VStr "10.0.0.5"; VInt 443]).
    split; [vm_compute; reflexivity|]. split; [reflexivity|]. split; reflexivity.
Defined.

(** X10. A scope opened where no state exists, around a wrapped
    [connect]: when the real connect returns having opened a socket whose
    peer address starts with a truthy [ip], with the scope's list untouched
    and the span still recording, the [with] statement ends in the real
    result, the span has been given [NET_PEER_IP = ip] by one
    [set_attribute] call after the real connect, and the ambient context is
    again the one before the scope. *)
Theorem scope_connect_stamps {Args R} span (wrapped : Args -> M R) instance args
    w result w1 ip :
  _getstate w = None ->
  wrapped args (scope_entered span w) = (Return result, w1) ->
  need_ip w1 = need_ip (scope_entered span w) ->
  recording w1 span = true ->
  peer_ip instance w1 ip ->
  let out :=
    set_ip_on_next_http_connection span
      (_instrumented_connect Args R wrapped instance args) w in
  fst out = Return result
  /\ ctx (snd out) = ctx w
  /\ trace (snd out) = trace w1 ++ probe instance ++ [stamp ip span]
  /\ span_attribute (trace (snd out)) span NET_PEER_IP = Some ip.
Proof.
  intros Hstate Hreal Hkeep Hrec Hip out. subst out.
  destruct (need_ip_entered_new span w Hstate) as [Hst Hlist].
  assert (need_ip w1 = Some [span]) as Hneed1.
  { rewrite Hkeep. unfold need_ip. rewrite Hst. exact Hlist. }
  assert (all_recording (recording w1) [span]) as Hall
    by (constructor; [exact Hrec|constructor]).
  destruct (trysetip_capture_all_recording instance WARNING w1 [span] ip
              Hneed1 ltac:(discriminate) Hall Hip) as (w2 & Hpost & _ & _ & _ & Htrace).
  rewrite (scope_new_state span _ w Hstate).
  rewrite instrumented_connect_spec, Hreal, Hpost. cbn [fst snd].
  split; [reflexivity|]. split; [reflexivity|].
  cbn [trace set_ctx]. split; [exact Htrace|].
  rewrite Htrace, app_assoc. apply (span_attribute_stamped ip span [span]). left.
Qed.

Lemma scope_connect_stamps_witness :
  span_attribute
    (trace (snd (set_ip_on_next_http_connection 1%nat
                   (_instrumented_connect unit Value
                      (opening "connect" (VTuple [VStr "10.0.0.5"; VInt 443]) 0%nat) 0%nat tt)
                   world_idle)))
    1%nat NET_PEER_IP = Some (VStr "10.0.0.5").
Proof.
  refine (proj2 (proj2 (proj2 (scope_connect_stamps 1%nat
    (opening "connect" (VTuple [VStr "10.0.0.5"; VInt 443]) 0%nat) 0%nat tt
    world_idle VNone
    (snd (opening "connect" (VTuple [VStr "10.0.0.5"; VInt 443]) 0%nat tt
            (scope_entered 1%nat world_idle)))
    (VStr "10.0.0.5") _ _ _ _ _)))).
  - reflexivity.
  - reflexivity.
  - reflexivity.
  - reflexivity.
  - exists {| getpeername := Return (VTuple [VStr "10.0.0.5"; VInt 443]) |},
      (VTuple [VStr "10.0.0.5"; VInt 443]).
    split; [vm_compute; reflexivity|]. split; [reflexivity|]. split; reflexivity.
Defined.

Lemma scope_entered_frame span w :
  recording (scope_entered span w) = recording w
  /\ conns (scope_entered span w) = conns w
  /\ trace (scope_entered span w) = trace w.
Proof. unfold scope_entered. destruct (_getstate w); repeat split. Qed.

Lemma peer_ip_entered span conn w ip :
  peer_ip conn w ip -> peer_ip conn (scope_entered span w) ip.
Proof.
  unfold peer_ip, read_sock.
  destruct (scope_entered_frame span w) as (_ & -> & _). tauto.
Qed.

Lemma without_first_pair s1 s2 : without_first s2 [s1; s2] = [s1].
Proof.
  rewrite without_first_cons. destruct (Nat.eqb s2 s1) eqn:He.
  - apply Nat.eqb_eq in He as ->. reflexivity.
  - rewrite without_first_cons, Nat.eqb_refl. reflexivity.
Qed.

(** X11. Nested scopes share one list: with no state to begin with, a
    scope for [s1] around a scope for [s2] around a capture on a live socket
    has both spans, in the order they were registered, given the same
    [NET_PEER_IP] by that one capture; the exit of the inner scope takes
    [s2] out and leaves [s1] in the list; and the exit of the outer scope
    restores the ambient context. *)
Theorem nested_scopes_share_capture s1 s2 conn loglevel w ip :
  _getstate w = None ->
  recording w s1 = true ->
  recording w s2 = true ->
  peer_ip conn w ip ->
  let out :=
    set_ip_on_next_http_connection s1
      (set_ip_on_next_http_connection s2 (trysetip conn loglevel)) w in
  fst out = Return true
  /\ ctx (snd out) = ctx w
  /\ trace (snd out) = trace w ++ probe conn ++ [stamp ip s1; stamp ip s2]
  /\ span_attribute (trace (snd out)) s1 NET_PEER_IP = Some ip
  /\ span_attribute (trace (snd out)) s2 NET_PEER_IP = Some ip
  /\ lists (snd out) !! length (lists w) = Some [s1].
Proof.
  intros Hstate Hr1 Hr2 Hip out. subst out.
  set (n := length (lists w)).
  destruct (need_ip_entered_new s1 w Hstate) as [Hst1 Hlist1]. fold n in Hst1, Hlist1.
  set (we1 := scope_entered s1 w) in *.
  destruct (need_ip_entered_shared s2 we1 n [s1] Hst1 Hlist1) as [Hst2 Hlist2].
  set (we2 := scope_entered s2 we1) in *.
  assert (recording we2 = recording w) as Hrec.
  { transitivity (recording we1);
      [apply (scope_entered_frame s2 we1)|apply (scope_entered_frame s1 w)]. }
  assert (trace we2 = trace w) as Htr.
  { transitivity (trace we1);
      [apply (scope_entered_frame s2 we1)|apply (scope_entered_frame s1 w)]. }
  assert (need_ip we2 = Some [s1; s2]) as Hneed2
    by (unfold need_ip; rewrite Hst2; exact Hlist2).
  assert (all_recording (recording we2) [s1; s2]) as Hall
    by (rewrite Hrec; repeat constructor; assumption).
  assert (peer_ip conn we2 ip) as Hip2 by (apply peer_ip_entered, peer_ip_entered; exact Hip).
  destruct (trysetip_capture_all_recording conn loglevel we2 [s1; s2] ip
              Hneed2 ltac:(discriminate) Hall Hip2)
    as (w3 & Hcap & _ & _ & Hlists3 & Htrace3).
  assert (lists w3 !! n = Some [s1; s2]) as Hl3 by (rewrite Hlists3; exact Hlist2).
  rewrite (scope_new_state s1 _ w Hstate). fold we1.
  rewrite (scope_shared_state s2 (trysetip conn loglevel) we1 n Hst1). fold we2.
  rewrite Hcap. cbn [fst snd]. unfold Loc in *. rewrite Hl3, without_first_pair.
  cbn [trace ctx lists set_ctx set_lists]. rewrite Htrace3, Htr.
  split; [reflexivity|]. split; [reflexivity|]. split; [reflexivity|].
  split; [rewrite app_assoc; apply (span_attribute_stamped ip s1 [s1; s2]); left|].
  split; [rewrite app_assoc; apply (span_attribute_stamped ip s2 [s1; s2]); right; left|].
  apply list_lookup_insert_eq. apply lookup_lt_Some in Hl3. exact Hl3.
Qed.

Lemma nested_scopes_share_capture_witness :
  trace (snd (set_ip_on_next_http_connection 1%nat
                (set_ip_on_next_http_connection 2%nat (trysetip 0 DEBUG))
                (mkWorld (fun _ => true) [] ∅ {[ 0%nat := peer (VStr "::1") ]} [])))
  = [] ++ probe 0 ++ [stamp (VStr ":") 1%nat; stamp (VStr ":") 2%nat].
Proof.
  refine (proj1 (proj2 (proj2 (nested_scopes_share_capture 1%nat 2%nat 0%nat DEBUG
    (mkWorld (fun _ => true) [] ∅ {[ 0%nat := peer (VStr "::1") ]} [])
    (VStr ":") _ _ _ _)))).
  - reflexivity.
  - reflexivity.
  - reflexivity.
  - exists {| getpeername := Return (VStr "::1") |}, (VStr "::1").
    split; [vm_compute; reflexivity|]. split; [reflexivity|]. split; reflexivity.
Defined.
